(** * network_monitor: the table extraction and aggregation engine

    A shallow embedding of [network_monitor.go]: the tree search primitives
    ([findDescendant], [findFollowupSibling]), the field extractors
    ([getAttribute], [getInnerText]), the two extraction passes
    ([fetchDevices], [fetchLanStatistics]) and the JSON reader
    ([dataHandler]), over an explicit model of the Go heap they share. *)

From Stdlib Require Import ZArith Ascii String.
From stdpp Require Import gmap strings list fin_maps pretty.
From Equations Require Import Equations.

Set Warnings "-register-all,-clear-no-such-hyp".

Local Open Scope string_scope.
Local Open Scope Z_scope.
Local Open Scope nat_scope.
Local Open Scope list_scope.

(** ** The parsed document ([golang.org/x/net/html]) *)

Module Html.

(** [html.NodeType]. *)
Inductive NodeType : Set :=
  | ErrorNode | TextNode | DocumentNode | ElementNode
  | CommentNode | DoctypeNode | RawNode.

(** [atom.Atom]: the four atoms the program compares against, and every other
    code ([OtherAtom 0] is the zero atom of text nodes and unknown tags). *)
Inductive Atom : Set :=
  | Table | Tr | Th | Td
  | OtherAtom (code : N).

#[global] Instance NodeType_eq_dec : EqDecision NodeType.
Proof. solve_decision. Defined.

#[global] Instance Atom_eq_dec : EqDecision Atom.
Proof. solve_decision. Defined.

(** [html.Attribute]. *)
Record Attribute : Set := mkAttribute {
  Namespace : string;
  Key : string;
  Val : string
}.

(** [html.Node], read only. [FirstChild] and the [NextSibling] chain of the
    children are the ordered list [Children]. *)
Inductive Node : Set := mkNode {
  Type_ : NodeType;
  DataAtom : Atom;
  Data : string;
  Attr : list Attribute;
  Children : list Node
}.

(** A non-nil [*html.Node] as the program holds it: the node together with
    its [NextSibling] chain. The nil pointer is [None : option Cursor]. *)
Record Cursor : Set := mkCursor {
  here : Node;
  later : list Node
}.

(** [node.FirstChild]. *)
Definition FirstChild (node : Node) : option Cursor :=
  match Children node with
  | [] => None
  | c :: rest => Some (mkCursor c rest)
  end.

(** [node.NextSibling]. *)
Definition NextSibling (c : Cursor) : option Cursor :=
  match later c with
  | [] => None
  | s :: rest => Some (mkCursor s rest)
  end.

(** Induction over a node and all of its children. *)
Lemma Node_ind' (P : Node -> Prop) :
  (forall ty a d at_ cs, Forall P cs -> P (mkNode ty a d at_ cs)) ->
  forall n, P n.
Proof.
  intros step. fix IH 1. intros [ty a d at_ cs]. apply step.
  induction cs as [|c cs IHcs]; constructor; [apply IH | exact IHcs].
Qed.

End Html.

Import Html.

(** ** Tree search primitives *)

Definition nodeConditionFunc : Set := Node -> bool.

(** [findDescendant]: the [for child := node.FirstChild; ...] loop is the
    inner [fix] over the children still to scan. *)
Fixpoint findDescendant (node : Node) (conditionFunc : nodeConditionFunc)
  {struct node} : option Cursor :=
  (fix scan (children : list Node) : option Cursor :=
     match children with
     | [] => None
     | child :: rest =>
         if conditionFunc child then Some (mkCursor child rest)
         else match findDescendant child conditionFunc with
              | Some res => Some res
              | None => scan rest
              end
     end) (Children node).

(** The sibling loop of [findFollowupSibling], from [node.NextSibling] on. *)
Fixpoint followupFrom (a : Atom) (siblings : list Node) : option Cursor :=
  match siblings with
  | [] => None
  | sibling :: rest =>
      if decide (a = DataAtom sibling) then Some (mkCursor sibling rest)
      else followupFrom a rest
  end.

Definition findFollowupSibling (node : Cursor) : option Cursor :=
  followupFrom (DataAtom (here node)) (later node).

(** ** Field extractors *)

Fixpoint getAttribute_loop (attrs : list Attribute) (key : string) : string :=
  match attrs with
  | [] => ""
  | attr :: rest =>
      if decide (Key attr = key) then Val attr else getAttribute_loop rest key
  end.

Definition getAttribute (node : Node) (key : string) : string :=
  getAttribute_loop (Attr node) key.

Fixpoint getInnerText (node : Node) : string :=
  if decide (Type_ node = TextNode) then Data node
  else (fix loop (res : string) (children : list Node) : string :=
          match children with
          | [] => res
          | child :: rest => loop (res +:+ getInnerText child) rest
          end) "" (Children node).

(** ** The visits of a search

    Nodes are told apart by their position: the child indices from the root
    of the search down to the node. *)

Definition Path : Set := list nat.

Fixpoint cursorAt_list (cs : list Node) (i : nat) (p : Path) {struct p}
  : option Cursor :=
  match drop i cs with
  | [] => None
  | c :: rest =>
      match p with
      | [] => Some (mkCursor c rest)
      | j :: p' => cursorAt_list (Children c) j p'
      end
  end.

(** The pointer reached from [node] along a non-empty path. *)
Definition cursorAt (node : Node) (p : Path) : option Cursor :=
  match p with
  | [] => None
  | i :: p' => cursorAt_list (Children node) i p'
  end.

(** All proper descendants in document order: each child, then what is
    below it, then its next sibling. *)
Fixpoint descendants (node : Node) : list Path :=
  (fix each (i : nat) (children : list Node) : list Path :=
     match children with
     | [] => []
     | child :: rest =>
         ([i] :: map (cons i) (descendants child)) ++ each (S i) rest
     end) 0 (Children node).

(** [findDescendant] with a log: the positions [conditionFunc] is called on,
    in call order, and the position returned. *)
Fixpoint findDescendant_visits (node : Node) (conditionFunc : nodeConditionFunc)
  {struct node} : list Path * option Path :=
  (fix scan (i : nat) (children : list Node) : list Path * option Path :=
     match children with
     | [] => ([], None)
     | child :: rest =>
         if conditionFunc child then ([[i]], Some [i])
         else
           let below := findDescendant_visits child conditionFunc in
           let seen := [i] :: map (cons i) (fst below) in
           match snd below with
           | Some q => (seen, Some (i :: q))
           | None =>
               let next := scan (S i) rest in
               (seen ++ fst next, snd next)
           end
     end) 0 (Children node).

(** [q] lies strictly below [p]. *)
Definition below (p q : Path) : Prop := exists s, s <> [] /\ q = p ++ s.

(** ** Library functions of [strings] and [strconv] the passes call *)

Module Strings.

Definition tab : ascii := ascii_of_nat 9.
Definition newline : ascii := ascii_of_nat 10.

(** The cutset [" \t\n"] of every [strings.Trim] call. *)
Definition blanks : string := String " " (String tab (String newline "")).

Fixpoint IndexByte (s : string) (c : ascii) : bool :=
  match s with
  | EmptyString => false
  | String c' s' => if decide (c = c') then true else IndexByte s' c
  end.

Fixpoint TrimLeft (s cutset : string) : string :=
  match s with
  | EmptyString => EmptyString
  | String c s' => if IndexByte cutset c then TrimLeft s' cutset else s
  end.

Fixpoint TrimRight (s cutset : string) : string :=
  match s with
  | EmptyString => EmptyString
  | String c s' =>
      match TrimRight s' cutset with
      | EmptyString => if IndexByte cutset c then EmptyString else String c EmptyString
      | kept => String c kept
      end
  end.

(** [strings.Trim(s, cutset)] for a cutset of single bytes. *)
Definition Trim (s cutset : string) : string :=
  TrimLeft (TrimRight s cutset) cutset.

(** [strings.ReplaceAll(s, old, "")] for a one-byte [old]. *)
Fixpoint RemoveByte (s : string) (old : ascii) : string :=
  match s with
  | EmptyString => EmptyString
  | String c s' =>
      if decide (c = old) then RemoveByte s' old else String c (RemoveByte s' old)
  end.

End Strings.

Module Strconv.

Inductive NumError : Set := ErrSyntax | ErrRange.

Definition maxUint64 : Z := 2 ^ 64 - 1.

(** The value of a decimal digit byte, if it is one. *)
Definition digit (c : ascii) : option Z :=
  let n := Z.of_N (N_of_ascii c) in
  if decide (48 <= n <= 57)%Z then Some (n - 48)%Z else None.

(** The digit loop of [strconv.ParseUint] in base 10, on [uint64] with its
    wrap-around. *)
Fixpoint ParseUint_loop (s : string) (maxVal n : Z) : Z * option NumError :=
  match s with
  | EmptyString => (n, None)
  | String c s' =>
      match digit c with
      | None => (0%Z, Some ErrSyntax)
      | Some d =>
          if decide (maxUint64 / 10 + 1 <= n)%Z then (maxVal, Some ErrRange)
          else
            let n10 := ((n * 10) mod 2 ^ 64)%Z in
            let n1 := ((n10 + d) mod 2 ^ 64)%Z in
            if decide (n1 < n10 \/ maxVal < n1)%Z then (maxVal, Some ErrRange)
            else ParseUint_loop s' maxVal n1
      end
  end.

(** [strconv.ParseUint(s, 10, bitSize)]. *)
Definition ParseUint (s : string) (bitSize : Z) : Z * option NumError :=
  match s with
  | EmptyString => (0%Z, Some ErrSyntax)
  | _ => ParseUint_loop s (2 ^ bitSize - 1)%Z 0%Z
  end.

(** [strconv.ParseInt(s, 10, bitSize)], for [0 < bitSize <= 64]. *)
Definition ParseInt (s : string) (bitSize : Z) : Z * option NumError :=
  match s with
  | EmptyString => (0%Z, Some ErrSyntax)
  | String c0 s1 =>
      let neg := bool_decide (c0 = "-"%char) in
      let digits := if decide (c0 = "+"%char \/ c0 = "-"%char) then s1 else s in
      let '(un, err) := ParseUint digits bitSize in
      match err with
      | Some ErrSyntax => (0%Z, Some ErrSyntax)
      | _ =>
          let cutoff := (2 ^ (bitSize - 1))%Z in
          if decide (neg = false /\ cutoff <= un)%Z then ((cutoff - 1)%Z, Some ErrRange)
          else if decide (neg = true /\ cutoff < un)%Z then ((- cutoff)%Z, Some ErrRange)
          else (if neg then (- un)%Z else un, None)
      end
  end.

(** What a decimal numeral denotes: an optional sign and one or more digits. *)
Fixpoint digitsValue (s : string) (acc : Z) : option Z :=
  match s with
  | EmptyString => Some acc
  | String c s' =>
      match digit c with
      | None => None
      | Some d => digitsValue s' (acc * 10 + d)%Z
      end
  end.

Definition decimalValue (s : string) : option Z :=
  match s with
  | EmptyString => None
  | String c0 s1 =>
      let digits := if decide (c0 = "+"%char \/ c0 = "-"%char) then s1 else s in
      match digits with
      | EmptyString => None
      | _ =>
          (fun v => if decide (c0 = "-"%char) then (- v)%Z else v)
            <$> digitsValue digits 0
      end
  end.

End Strconv.

Import Strings Strconv.

(** ** The Go heap the passes share

    A [[]int64] is a slice header over a backing array; [append] writes in
    place while the capacity lasts, so two headers over one array see each
    other's writes. Arrays and [DeviceData] objects live in heaps indexed by
    their address. *)

(** A slice header: the address of the backing array, length and capacity. *)
Record Slice : Set := mkSlice {
  base : nat;
  len : nat;
  cap : nat
}.

(** The backing arrays by address. Address 0 is the array of size zero that
    every empty literal points to. *)
Abbreviation Arrays := (list (list Z)).

Definition backing (m : Arrays) (s : Slice) : list Z := default [] (m !! base s).

(** The elements a reader of the slice sees. *)
Definition elems (m : Arrays) (s : Slice) : list Z := take (len s) (backing m s).

(** [[]int64{}]. *)
Definition emptySlice : Slice := mkSlice 0 0 0.

(** [type DeviceData struct]. *)
Record DeviceData : Set := mkDeviceData {
  DeviceName : string;
  TransmitBytes : Slice;
  ReceiveBytes : Slice
}.

(** [type ChartData struct]; a [*DeviceData] is an address in the object
    heap. [Devices] is only ever reassigned to its own [append], so its
    header and array are kept together as a list. The mutex is held over the
    whole body of each pass and of the reader, and is not modelled. *)
Record ChartData : Set := mkChartData {
  macAddressToDevice : gmap string nat;
  Devices : list nat;
  FetchMilliseconds : Slice
}.

Record Memory : Set := mkMemory {
  chartData : ChartData;
  objects : list DeviceData;
  arrays : Arrays
}.

(** The store [main] builds before the first pass. *)
Definition initial : Memory :=
  mkMemory (mkChartData ∅ [] emptySlice) [] [[]].

(** What [fetchAndParse] hands to a pass. *)
Inductive Fetched : Set :=
  | Parsed (doc : Node)
  | Failed (err : string).

(** How a call ends: it returns its [error] (nil is [None]), or it panics.
    Either way the store is left as the call made it. *)
Inductive Outcome : Set :=
  | Returned (st : Memory) (err : option string)
  | Panicked (st : Memory).

Definition stateOf (o : Outcome) : Memory :=
  match o with
  | Returned st _ => st
  | Panicked st => st
  end.

(** Nodes still ahead of a loop variable that walks a sibling chain. *)
Definition remaining (c : option Cursor) : nat :=
  match c with
  | None => 0
  | Some c => S (length (later c))
  end.

Lemma followupFrom_remaining a l :
  remaining (followupFrom a l) <= length l.
Proof.
  induction l as [|n l IH]; simpl; [lia|].
  destruct (decide (a = DataAtom n)); simpl; lia.
Qed.

Lemma findFollowupSibling_remaining c :
  remaining (findFollowupSibling c) < remaining (Some c).
Proof.
  unfold findFollowupSibling. simpl.
  pose proof (followupFrom_remaining (DataAtom (here c)) (later c)). lia.
Qed.

Definition inspect {A : Type} (a : A) : {b : A | a = b} := exist _ a eq_refl.

(** The closures passed to [findDescendant]. *)
Definition isDevicesTable (node : Node) : bool :=
  bool_decide (DataAtom node = Table)
  && bool_decide (getAttribute node "summary"
                  = "This table displays info for each LAN-side device").

Definition isStatisticsTable (node : Node) : bool :=
  bool_decide (DataAtom node = Table)
  && bool_decide (getAttribute node "summary"
                  = "Wi-Fi Client Connection Statistics Table").

Definition isTr (node : Node) : bool := bool_decide (DataAtom node = Tr).

Definition isTd (node : Node) : bool := bool_decide (DataAtom node = Td).

Definition isMacTh (node : Node) : bool :=
  bool_decide (DataAtom node = Th)
  && bool_decide (getInnerText node = "MAC Address").

(** [strings.Trim(getInnerText(td), " \t\n")]. *)
Definition cellText (td : Cursor) : string :=
  Trim (getInnerText (here td)) blanks.

(** ** The registry pass *)

(** Lines 138-143: the new object, then both views. *)
Definition register (st : Memory) (macAddress name : string) : Memory :=
  let deviceData := length (objects st) in
  let c := chartData st in
  mkMemory
    (mkChartData (<[macAddress := deviceData]> (macAddressToDevice c))
                 (Devices c ++ [deviceData])
                 (FetchMilliseconds c))
    (objects st ++ [mkDeviceData name emptySlice emptySlice])
    (arrays st).

(** One turn of the row loop of [fetchDevices], up to its [continue] or its
    end: the store, and [tr] as the post statement finds it. *)
Definition devicesBody (st : Memory) (tr : Cursor) : Memory * option Cursor :=
  match findDescendant (here tr) isMacTh with
  | None => (st, Some tr)
  | Some th =>
      match findDescendant (here tr) isTd with
      | None => (st, Some tr)
      | Some td =>
          let macAddress := cellText td in
          match macAddressToDevice (chartData st) !! macAddress with
          | Some _ => (st, Some tr)
          | None =>
              match findFollowupSibling tr with
              | None => (st, None)
              | Some tr' =>
                  match findDescendant (here tr') isTd with
                  | None => (st, Some tr')
                  | Some td' =>
                      (register st macAddress (RemoveByte (cellText td') newline),
                       Some tr')
                  end
              end
          end
      end
  end.

Lemma devicesBody_remaining st tr st' tr' :
  devicesBody st tr = (st', Some tr') ->
  remaining (Some tr') <= remaining (Some tr).
Proof.
  unfold devicesBody. intros H.
  pose proof (findFollowupSibling_remaining tr) as Hlt.
  repeat case_match; inversion H; subst; simpl in *; lia.
Qed.

(** The row loop of [fetchDevices]. Its post statement
    [tr = findFollowupSibling(tr)] reads [tr.NextSibling]: when line 130
    continues with [tr == nil] the call panics. *)
Equations? devicesLoop (st : Memory) (tr : option Cursor) : Outcome
  by wf (remaining tr) lt :=
devicesLoop st None := Returned st None;
devicesLoop st (Some tr) with inspect (devicesBody st tr) := {
  | exist _ (st', None) _ => Panicked st'
  | exist _ (st', Some tr') E => devicesLoop st' (findFollowupSibling tr') }.
Proof.
  pose proof (devicesBody_remaining _ _ _ _ E).
  pose proof (findFollowupSibling_remaining tr'). simpl in *. lia.
Qed.

Definition fetchDevices (st : Memory) (fetched : Fetched) : Outcome :=
  match fetched with
  | Failed err => Returned st (Some err)
  | Parsed doc =>
      match findDescendant doc isDevicesTable with
      | None => Returned st None
      | Some table => devicesLoop st (findDescendant (here table) isTr)
      end
  end.

(** ** The statistics pass and the reader *)

Section Runtime.

(** The capacity the runtime gives the new array when [append] has to move a
    slice, from the old capacity and the length needed. The language leaves
    it to the implementation; [append] never takes less than is needed. *)
Variable growslice : nat -> nat -> nat.

(** [encoding/json]'s rendering of a Go string as a JSON string literal. *)
Variable encodeString : string -> string.

(** [append(s, x)] for one element: the arrays after it and the header it
    returns. *)
Definition append (m : Arrays) (s : Slice) (x : Z) : Arrays * Slice :=
  if decide (len s < cap s) then
    (<[base s := <[len s := x]> (backing m s)]> m,
     mkSlice (base s) (S (len s)) (cap s))
  else
    let newcap := Nat.max (S (len s)) (growslice (cap s) (S (len s))) in
    (m ++ [elems m s ++ x :: replicate (newcap - S (len s)) 0%Z],
     mkSlice (length m) (S (len s)) newcap).

(** Line 152: [chartData.FetchMilliseconds = append(..., ms)]. *)
Definition recordFetch (st : Memory) (ms : Z) : Memory :=
  let c := chartData st in
  let r := append (arrays st) (FetchMilliseconds c) ms in
  mkMemory (mkChartData (macAddressToDevice c) (Devices c) (snd r))
           (objects st) (fst r).

(** Line 180: [deviceData.TransmitBytes = append(deviceData.TransmitBytes, bytes)].
    A pointer the map holds always has its object ([viewsAgree] below), so
    the first case is never taken. *)
Definition appendTransmit (st : Memory) (deviceData : nat) (bytes : Z) : Memory :=
  match objects st !! deviceData with
  | None => st
  | Some d =>
      let r := append (arrays st) (TransmitBytes d) bytes in
      mkMemory (chartData st)
               (<[deviceData := mkDeviceData (DeviceName d) (snd r) (ReceiveBytes d)]>
                  (objects st))
               (fst r)
  end.

(** Line 185: [deviceData.ReceiveBytes = append(deviceData.TransmitBytes, bytes)]. *)
Definition appendReceive (st : Memory) (deviceData : nat) (bytes : Z) : Memory :=
  match objects st !! deviceData with
  | None => st
  | Some d =>
      let r := append (arrays st) (TransmitBytes d) bytes in
      mkMemory (chartData st)
               (<[deviceData := mkDeviceData (DeviceName d) (TransmitBytes d) (snd r)]>
                  (objects st))
               (fst r)
  end.

(** Lines 178-182 and 183-187: the guarded parse and append of one column. *)
Definition parseAndAppend (appendTo : Memory -> nat -> Z -> Memory)
    (st : Memory) (td : Cursor) (deviceData : option nat)
    (columnIndex column : nat) : Memory :=
  match deviceData with
  | Some d =>
      if decide (columnIndex = column) then
        match ParseInt (cellText td) 32 with
        | (bytes, None) => appendTo st d bytes
        | (_, Some _) => st
        end
      else st
  | None => st
  end.

(** One turn of the cell loop, before [columnIndex++]: the store and the
    local [deviceData]. *)
Definition cellBody (st : Memory) (td : Cursor) (columnIndex : nat)
    (deviceData : option nat) : Memory * option nat :=
  let deviceData :=
    if decide (columnIndex = 0)
    then macAddressToDevice (chartData st) !! cellText td
    else deviceData in
  let st := parseAndAppend appendTransmit st td deviceData columnIndex 7 in
  let st := parseAndAppend appendReceive st td deviceData columnIndex 8 in
  (st, deviceData).

Equations? cellsLoop (st : Memory) (td : option Cursor) (columnIndex : nat)
    (deviceData : option nat) : Memory by wf (remaining td) lt :=
cellsLoop st None _ _ := st;
cellsLoop st (Some td) columnIndex deviceData :=
  cellsLoop (fst (cellBody st td columnIndex deviceData))
            (findFollowupSibling td) (S columnIndex)
            (snd (cellBody st td columnIndex deviceData)).
Proof. apply findFollowupSibling_remaining. Qed.

(** The body of the row loop: [columnIndex := 0], [deviceData] nil, and the
    cell loop from the first [td] below the row. *)
Definition rowBody (st : Memory) (tr : Cursor) : Memory :=
  cellsLoop st (findDescendant (here tr) isTd) 0 None.

Equations? rowsLoop (st : Memory) (tr : option Cursor) : Memory
  by wf (remaining tr) lt :=
rowsLoop st None := st;
rowsLoop st (Some tr) := rowsLoop (rowBody st tr) (findFollowupSibling tr).
Proof. apply findFollowupSibling_remaining. Qed.

(** [fetchLanStatistics]; [now] is [time.Now().UnixNano()]. *)
Definition fetchLanStatistics (st : Memory) (now : Z) (fetched : Fetched)
  : Memory * option string :=
  let st := recordFetch st (now ÷ 1000000)%Z in
  match fetched with
  | Failed err => (st, Some err)
  | Parsed doc =>
      match findDescendant doc isStatisticsTable with
      | None => (st, Some "Table not found")
      | Some table =>
          match findDescendant (here table) isTr with
          | None => (st, Some "Tr not found")
          | Some tr => (rowsLoop st (findFollowupSibling tr), None)
          end
      end
  end.

(** [json.Marshal(chartData)]: the exported fields in declaration order. It
    has no error case for this type. *)
Definition dquote : string := String (ascii_of_nat 34) "".

Definition jsonKey (name : string) : string := dquote +:+ name +:+ dquote +:+ ":".

Definition marshalInt64s (m : Arrays) (s : Slice) : string :=
  "[" +:+ String.concat "," (map pretty (elems m s)) +:+ "]".

Definition marshalDevice (st : Memory) (deviceData : nat) : string :=
  match objects st !! deviceData with
  | None => "null"
  | Some d =>
      "{" +:+ jsonKey "DeviceName" +:+ encodeString (DeviceName d)
      +:+ "," +:+ jsonKey "TransmitBytes" +:+ marshalInt64s (arrays st) (TransmitBytes d)
      +:+ "," +:+ jsonKey "ReceiveBytes" +:+ marshalInt64s (arrays st) (ReceiveBytes d)
      +:+ "}"
  end.

Definition Marshal (st : Memory) : string :=
  "{" +:+ jsonKey "Devices"
  +:+ "[" +:+ String.concat "," (map (marshalDevice st) (Devices (chartData st))) +:+ "]"
  +:+ "," +:+ jsonKey "FetchMilliseconds"
  +:+ marshalInt64s (arrays st) (FetchMilliseconds (chartData st))
  +:+ "}".

(** What a handler wrote: the status and the body. *)
Record Response : Set := mkResponse {
  status : nat;
  body : string
}.

(** [dataHandler]: the store as it leaves it, and the response. *)
Definition dataHandler (st : Memory) : Memory * Response :=
  (st, mkResponse 200 (Marshal st)).

End Runtime.

(** ** Sample documents *)

Module Sample.

Definition text (s : string) : Node := mkNode TextNode (OtherAtom 0) s [] [].

Definition elem (a : Atom) (children : list Node) : Node :=
  mkNode ElementNode a "" [] children.

Definition table (summary : string) (rows : list Node) : Node :=
  mkNode ElementNode Table "table" [mkAttribute "" "summary" summary]
         [elem (OtherAtom 1) rows].

Definition page (tables : list Node) : Node :=
  mkNode DocumentNode (OtherAtom 0) "" []
         [elem (OtherAtom 2) [elem (OtherAtom 3) []; elem (OtherAtom 4) tables]].

Definition cell (s : string) : Node := elem Td [text s].

Definition macRow (mac : string) : Node :=
  elem Tr [elem Th [text "MAC Address"]; cell mac].

Definition nameRow (name : string) : Node :=
  elem Tr [elem Th [text "Name"]; cell name].

Definition devicesPage (rows : list Node) : Node :=
  page [table "This table displays info for each LAN-side device" rows].

Definition statisticsPage (rows : list Node) : Node :=
  page [table "Wi-Fi Client Connection Statistics Table"
              (elem Tr [elem Th [text "MAC Address"]] :: rows)].

(** A statistics row: the hardware address, six cells the pass ignores, and
    the cells given for columns 7 and up. *)
Definition statisticsRow (mac : string) (counters : list string) : Node :=
  elem Tr (cell mac :: replicate 6 (cell "-") ++ map cell counters).

Definition laptop : string := "AA:BB:CC:DD:EE:FF".

(** A runtime that doubles the capacity of a slice it moves. *)
Definition doubling (oldcap needed : nat) : nat := 2 * oldcap.

(** The store after the registry pass has seen the one pair
    (["AA:BB:CC:DD:EE:FF"], ["laptop"]). *)
Definition registered : Memory :=
  stateOf (fetchDevices initial
             (Parsed (devicesPage [macRow laptop; nameRow "laptop"]))).

End Sample.

(** * Properties of the tree search *)

Section Search.

Variable conditionFunc : nodeConditionFunc.

(** The three child loops, as functions of the children still to scan. *)
Definition scanChildren : list Node -> option Cursor :=
  fix scan (children : list Node) : option Cursor :=
    match children with
    | [] => None
    | child :: rest =>
        if conditionFunc child then Some (mkCursor child rest)
        else match findDescendant child conditionFunc with
             | Some res => Some res
             | None => scan rest
             end
    end.

Definition eachChild : nat -> list Node -> list Path :=
  fix each (i : nat) (children : list Node) : list Path :=
    match children with
    | [] => []
    | child :: rest =>
        ([i] :: map (cons i) (descendants child)) ++ each (S i) rest
    end.

Definition scanVisits : nat -> list Node -> list Path * option Path :=
  fix scan (i : nat) (children : list Node) : list Path * option Path :=
    match children with
    | [] => ([], None)
    | child :: rest =>
        if conditionFunc child then ([[i]], Some [i])
        else
          let below := findDescendant_visits child conditionFunc in
          let seen := [i] :: map (cons i) (fst below) in
          match snd below with
          | Some q => (seen, Some (i :: q))
          | None =>
              let next := scan (S i) rest in
              (seen ++ fst next, snd next)
          end
    end.

Lemma findDescendant_unfold node :
  findDescendant node conditionFunc = scanChildren (Children node).
Proof. destruct node; reflexivity. Qed.

Lemma descendants_unfold node :
  descendants node = eachChild 0 (Children node).
Proof. destruct node; reflexivity. Qed.

Lemma findDescendant_visits_unfold node :
  findDescendant_visits node conditionFunc = scanVisits 0 (Children node).
Proof. destruct node; reflexivity. Qed.

(** The condition holds ([b = true]) or fails ([b = false]) at the node a
    position leads to. *)
Definition answers (node : Node) (b : bool) (p : Path) : Prop :=
  exists c, cursorAt node p = Some c /\ conditionFunc (here c) = b.

(** What one search from [node] establishes: [found] is what it returns,
    [order] the document order below [node], [vis] the positions it called
    the condition on and [hit] the position it ends with. *)
Definition search_spec (node : Node) (found : option Cursor)
    (order vis : list Path) (hit : option Path) : Prop :=
  vis `prefix_of` order /\
  match hit with
  | Some q =>
      (exists c, found = Some c /\ cursorAt node q = Some c /\
                 conditionFunc (here c) = true) /\
      (exists before, vis = before ++ [q] /\ Forall (answers node false) before) /\
      Forall (fun p => ~ below q p) vis
  | None =>
      found = None /\ vis = order /\ Forall (answers node false) vis
  end.

Lemma eachChild_heads i cs p :
  p ∈ eachChild i cs -> exists j p', p = j :: p' /\ i <= j.
Proof.
  revert i. induction cs as [|c cs IH]; intros i; simpl; [by rewrite elem_of_nil|].
  rewrite elem_of_cons, elem_of_app, list_elem_of_fmap.
  intros [-> | [(p' & -> & _) | Hin]].
  { exists i, (@nil nat). split; [done|lia]. }
  { exists i, p'. split; [done|lia]. }
  destruct (IH _ Hin) as (j & p' & -> & Hle). exists j, p'. split; [done | lia].
Qed.

Lemma eachChild_NoDup i cs :
  Forall (fun c => NoDup (descendants c)) cs -> NoDup (eachChild i cs).
Proof.
  revert i. induction cs as [|c cs IH]; intros i Hall; simpl; [constructor|].
  inversion Hall as [|? ? Hc Hcs]; subst.
  apply NoDup_cons. split.
  - rewrite elem_of_app, list_elem_of_fmap. intros [(p & Hp & Hin) | Hin].
    { rewrite descendants_unfold in Hin.
      destruct (eachChild_heads _ _ _ Hin) as (j & p' & -> & _). discriminate. }
    destruct (eachChild_heads _ _ _ Hin) as (j & p' & Heq & Hle). inversion Heq; lia.
  - apply NoDup_app. split; [|split].
    + apply NoDup_fmap_2; [|done]. intros x y Hxy. by inversion Hxy.
    + intros p. rewrite list_elem_of_fmap. intros (p' & -> & _) Hin.
      destruct (eachChild_heads _ _ _ Hin) as (j & p'' & Heq & Hle). inversion Heq; lia.
    + by apply IH.
Qed.

Lemma descendants_NoDup node : NoDup (descendants node).
Proof.
  induction node as [ty a d at_ cs IH] using Node_ind'.
  rewrite descendants_unfold. by apply eachChild_NoDup.
Qed.


Lemma cursorAt_head node i c rest :
  drop i (Children node) = c :: rest ->
  cursorAt node [i] = Some (mkCursor c rest).
Proof. intros H. simpl. by rewrite H. Qed.

Lemma cursorAt_step node i c rest p :
  p <> [] ->
  drop i (Children node) = c :: rest ->
  cursorAt node (i :: p) = cursorAt c p.
Proof. intros Hp H. destruct p as [|j p]; [done|]. simpl. by rewrite H. Qed.

Lemma answers_step node i c rest b p :
  drop i (Children node) = c :: rest ->
  answers c b p -> answers node b (i :: p).
Proof.
  intros H (c' & Hat & Hb). exists c'. split; [|done].
  rewrite (cursorAt_step node i c rest p); [done| |done]. by intros ->.
Qed.

Lemma below_cons i p q : below (i :: p) (i :: q) -> below p q.
Proof. intros (s & Hs & Heq). exists s. split; [done|]. by inversion Heq. Qed.

Lemma below_head i j p q : below (i :: p) (j :: q) -> i = j.
Proof. intros (s & Hs & Heq). by inversion Heq. Qed.

Lemma not_below_shorter p : ~ below p [] .
Proof. intros (s & Hs & Heq). symmetry in Heq. apply app_eq_nil in Heq. tauto. Qed.

Lemma scanVisits_heads i cs q :
  snd (scanVisits i cs) = Some q -> exists j q', q = j :: q' /\ i <= j.
Proof.
  revert i. induction cs as [|c cs IH]; intros i; simpl; [done|].
  destruct (conditionFunc c).
  - intros [= <-]. exists i, (@nil nat). split; [done|lia].
  - destruct (snd (findDescendant_visits c conditionFunc)) as [q0|]; simpl.
    + intros [= <-]. exists i, q0. split; [done|lia].
    + intros H. destruct (IH _ H) as (j & q' & -> & Hle). exists j, q'. split; [done|lia].
Qed.

Lemma scanVisits_visit_heads i cs p :
  p ∈ fst (scanVisits i cs) -> exists j p', p = j :: p' /\ i <= j.
Proof.
  revert i. induction cs as [|c cs IH]; intros i; simpl; [by rewrite elem_of_nil|].
  destruct (conditionFunc c); simpl.
  { rewrite list_elem_of_singleton. intros ->. exists i, (@nil nat). split; [done|lia]. }
  assert (Hseen : forall v : list Path, p ∈ [i] :: map (cons i) v ->
            exists j p', p = j :: p' /\ i <= j).
  { intros v. rewrite elem_of_cons, list_elem_of_fmap.
    intros [-> | (p' & -> & _)].
    - exists i, (@nil nat). split; [done|lia].
    - exists i, p'. split; [done|lia]. }
  destruct (snd (findDescendant_visits c conditionFunc)) as [q0|]; simpl; [by apply Hseen|].
  rewrite app_comm_cons, elem_of_app. intros [Hin | Hin]; [by eapply Hseen|].
  destruct (IH _ Hin) as (j & p' & -> & Hle). exists j, p'. split; [done|lia].
Qed.

Lemma prefix_map_cons (i : nat) (l1 l2 : list Path) :
  l1 `prefix_of` l2 -> map (cons i) l1 `prefix_of` map (cons i) l2.
Proof. intros [k ->]. exists (map (cons i) k). apply map_app. Qed.

Lemma scan_spec node cs i :
  drop i (Children node) = cs ->
  Forall (fun c => search_spec c (findDescendant c conditionFunc)
                     (descendants c)
                     (fst (findDescendant_visits c conditionFunc))
                     (snd (findDescendant_visits c conditionFunc))) cs ->
  search_spec node (scanChildren cs) (eachChild i cs)
              (fst (scanVisits i cs)) (snd (scanVisits i cs)).
Proof.
  revert i. induction cs as [|c cs IH]; intros i Hdrop Hall.
  { simpl. split; [done|]. split; [done|]. split; [done|]. constructor. }
  inversion Hall as [|? ? Hc Hcs]; subst.
  assert (Hnext : drop (S i) (Children node) = cs).
  { replace (S i) with (i + 1) by lia. by rewrite <- drop_drop, Hdrop. }
  specialize (IH _ Hnext Hcs).
  simpl scanChildren. simpl eachChild. simpl scanVisits.
  destruct (conditionFunc c) eqn:Hcond.
  - (* the child answers the condition *)
    simpl. split; [by apply prefix_cons, prefix_nil|].
    split; [|split].
    + exists (mkCursor c cs). by rewrite (cursorAt_head _ _ _ _ Hdrop).
    + exists []. by split.
    + constructor; [|constructor]. intros (s & Hs & Heq).
      destruct s; [done|]. discriminate.
  - destruct Hc as [Hpre Hc].
    assert (Hchild : answers node false [i]).
    { exists (mkCursor c cs). by rewrite (cursorAt_head _ _ _ _ Hdrop). }
    destruct (snd (findDescendant_visits c conditionFunc)) as [q|] eqn:Hhit; simpl.
    + (* found below the child *)
      destruct Hc as ((c' & -> & Hat & Hc') & (before & Hvis & Hbefore) & Hnot).
      split.
      { apply prefix_cons, prefix_app_r. by apply prefix_map_cons. }
      split; [|split].
      * exists c'. split; [done|]. split; [|done].
        rewrite (cursorAt_step node i c cs q); [done| |done]. by intros ->.
      * exists ([i] :: map (cons i) before). split.
        { by rewrite Hvis, (map_app (cons i)). }
        constructor; [done|].
        apply Forall_fmap. eapply Forall_impl; [exact Hbefore|].
        intros p Hp. simpl. by eapply answers_step.
      * constructor.
        { intros Hb. apply below_cons in Hb. by apply not_below_shorter in Hb. }
        apply Forall_fmap. eapply Forall_impl; [exact Hnot|].
        intros p Hp Hb. simpl in Hb. by apply below_cons in Hb.
    + (* nothing below the child: on to the next sibling *)
      destruct Hc as (-> & Hvis & Hfalse).
      destruct IH as [Hpre' IH]. split.
      { rewrite Hvis. by apply prefix_cons, prefix_app. }
      assert (Hseen : Forall (answers node false)
                ([i] :: map (cons i) (fst (findDescendant_visits c conditionFunc)))).
      { constructor; [done|].
        apply Forall_fmap. eapply Forall_impl; [exact Hfalse|].
        intros p Hp. simpl. by eapply answers_step. }
      destruct (snd (scanVisits (S i) cs)) as [q|] eqn:Hhit'.
      * destruct IH as (Hfound & (before & Hvis' & Hbefore) & Hnot).
        split; [done|]. split.
        { exists (([i] :: map (cons i) (fst (findDescendant_visits c conditionFunc)))
                  ++ before).
          split; [by rewrite Hvis', <- app_assoc|].
          by apply Forall_app. }
        destruct (scanVisits_heads _ _ _ Hhit') as (j & q' & -> & Hle).
        change (Forall (fun p => ~ below (j :: q') p)
                  (([i] :: map (cons i) (fst (findDescendant_visits c conditionFunc)))
                   ++ fst (scanVisits (S i) cs))).
        apply Forall_app. split; [|done].
        constructor.
        { intros Hb. apply below_head in Hb. lia. }
        apply Forall_fmap, Forall_forall. intros p _ Hb. simpl in Hb.
        apply below_head in Hb. lia.
      * destruct IH as (Hfound & Hvis' & Hfalse').
        split; [done|]. split.
        { by rewrite Hvis, Hvis'. }
        change (Forall (answers node false)
                  (([i] :: map (cons i) (fst (findDescendant_visits c conditionFunc)))
                   ++ fst (scanVisits (S i) cs))).
        by apply Forall_app.
Qed.

Lemma findDescendant_search_spec node :
  search_spec node (findDescendant node conditionFunc) (descendants node)
              (fst (findDescendant_visits node conditionFunc))
              (snd (findDescendant_visits node conditionFunc)).
Proof.
  induction node as [ty a d at_ cs IH] using Node_ind'.
  rewrite findDescendant_unfold, descendants_unfold, findDescendant_visits_unfold.
  by apply scan_spec.
Qed.

End Search.

(** C8. [findDescendant] searches the nodes below [node] depth first, asking
    the condition of each child before it goes below it. The positions it
    asks about are an initial stretch of the document order below [node], none
    of them twice. It returns the first position that answers the condition:
    every position asked before it fails the condition and nothing below the
    returned node is asked. When it returns nil it has asked every position
    below [node] and all of them fail the condition. *)
Theorem findDescendant_first_in_document_order
    (node : Node) (conditionFunc : nodeConditionFunc) :
  let visits := fst (findDescendant_visits node conditionFunc) in
  let hit := snd (findDescendant_visits node conditionFunc) in
  visits `prefix_of` descendants node /\
  NoDup visits /\
  match hit with
  | Some q =>
      (exists c, findDescendant node conditionFunc = Some c /\
                 cursorAt node q = Some c /\ conditionFunc (here c) = true) /\
      (exists before, visits = before ++ [q] /\
                      Forall (answers conditionFunc node false) before) /\
      Forall (fun p => ~ below q p) visits
  | None =>
      findDescendant node conditionFunc = None /\
      visits = descendants node /\
      Forall (answers conditionFunc node false) visits
  end.
Proof.
  intros visits hit.
  destruct (findDescendant_search_spec conditionFunc node) as [Hpre Hspec].
  split; [exact Hpre|]. split; [|exact Hspec].
  destruct Hpre as [k Hk]. pose proof (descendants_NoDup node) as Hnd.
  fold visits in Hk. rewrite Hk in Hnd. by apply NoDup_app in Hnd as [? _].
Qed.

(** * Properties of [strconv.ParseInt] *)

Module StrconvFacts.

Lemma digit_range c d : digit c = Some d -> (0 <= d <= 9)%Z.
Proof. unfold digit. case_decide; intros [= <-]; lia. Qed.

Lemma digitsValue_le s : forall acc v,
  (0 <= acc)%Z -> digitsValue s acc = Some v -> (acc <= v)%Z.
Proof.
  induction s as [|c s IH]; simpl; intros acc v Hacc.
  - intros [= <-]. lia.
  - destruct (digit c) as [d|] eqn:Hd; [|done].
    apply digit_range in Hd. intros Hv. apply IH in Hv; lia.
Qed.

(** The digit loop against the value of the numeral: the value when it fits
    [maxVal], a range error when it does not, an error when it is no
    numeral. *)
Lemma ParseUint_loop_spec maxVal s : forall n,
  (0 <= n <= maxVal)%Z -> (maxVal <= maxUint64)%Z ->
  match digitsValue s n with
  | Some v =>
      ParseUint_loop s maxVal n
      = if decide (v <= maxVal)%Z then (v, None) else (maxVal, Some ErrRange)
  | None => snd (ParseUint_loop s maxVal n) <> None
  end.
Proof.
  unfold maxUint64.
  induction s as [|c s IH]; simpl; intros n Hn Hmax.
  { by rewrite decide_True by lia. }
  destruct (digit c) as [d|] eqn:Hd; [|done].
  pose proof (digit_range _ _ Hd) as Hdr.
  assert (Hge : forall v, digitsValue s (n * 10 + d) = Some v -> (n * 10 + d <= v)%Z).
  { intros v. apply digitsValue_le. lia. }
  unfold maxUint64.
  change ((2 ^ 64 - 1) / 10 + 1)%Z with 1844674407370955162%Z.
  destruct (decide (1844674407370955162 <= n)%Z) as [Hcut|Hcut].
  { destruct (digitsValue s (n * 10 + d)) as [v|] eqn:Hv; [|done].
    specialize (Hge _ eq_refl). rewrite decide_False; [done|]. lia. }
  assert (Hn10 : ((n * 10) mod 2 ^ 64 = n * 10)%Z).
  { apply Z.mod_small. lia. }
  rewrite Hn10.
  destruct (decide (n * 10 + d < 2 ^ 64)%Z) as [Hfit|Hwrap].
  - rewrite (Z.mod_small (n * 10 + d)) by lia.
    destruct (decide (n * 10 + d < n * 10 \/ maxVal < n * 10 + d)%Z) as [Hbig|Hok].
    + destruct (digitsValue s (n * 10 + d)) as [v|] eqn:Hv; [|done].
      specialize (Hge _ eq_refl). rewrite decide_False; [done|]. lia.
    + apply IH; lia.
  - assert (Hmod : ((n * 10 + d) mod 2 ^ 64 = n * 10 + d - 2 ^ 64)%Z).
    { symmetry. apply (Z.mod_unique _ _ 1); lia. }
    rewrite Hmod, decide_True by lia.
    destruct (digitsValue s (n * 10 + d)) as [v|] eqn:Hv; [|done].
    specialize (Hge _ eq_refl). rewrite decide_False; [done|]. lia.
Qed.

Lemma ParseUint_loop_range maxVal s : forall n,
  snd (ParseUint_loop s maxVal n) = Some ErrRange ->
  fst (ParseUint_loop s maxVal n) = maxVal.
Proof.
  induction s as [|c s IH]; simpl; intros n; [done|].
  destruct (digit c); [|done].
  repeat case_decide; simpl; try done. apply IH.
Qed.

Definition inInt32 (v : Z) : Prop := (- 2 ^ 31 <= v <= 2 ^ 31 - 1)%Z.

#[global] Instance inInt32_dec v : Decision (inInt32 v).
Proof. unfold inInt32. apply _. Defined.

(** [ParseInt(s, 10, 32)] against the value of the numeral. *)
Lemma ParseInt32_spec s :
  match decimalValue s with
  | Some v =>
      if decide (inInt32 v) then ParseInt s 32 = (v, None)
      else snd (ParseInt s 32) = Some ErrRange
  | None => snd (ParseInt s 32) <> None
  end.
Proof.
  destruct s as [|c0 s1]; [done|].
  unfold decimalValue, ParseInt, inInt32.
  set (digits := if decide (c0 = "+"%char \/ c0 = "-"%char) then s1 else String c0 s1).
  destruct digits as [|c s] eqn:Hdigits; [done|].
  unfold ParseUint.
  pose proof (ParseUint_loop_spec (2 ^ 32 - 1) (String c s) 0) as Hloop.
  assert (Hpos : forall u, digitsValue (String c s) 0 = Some u -> (0 <= u)%Z).
  { intros u. by apply digitsValue_le. }
  destruct (digitsValue (String c s) 0) as [u|] eqn:Hu.
  - specialize (Hpos _ eq_refl). rewrite Hloop by (unfold maxUint64; lia). clear Hloop.
    simpl fmap. change (2 ^ (32 - 1))%Z with (2 ^ 31)%Z.
    destruct (decide (c0 = "-"%char)) as [Hneg|Hneg].
    + rewrite (bool_decide_eq_true_2 _ Hneg).
      destruct (decide (u <= 2 ^ 32 - 1)%Z);
        repeat case_decide; simpl; try done; try lia; f_equal; lia.
    + rewrite (bool_decide_eq_false_2 _ Hneg).
      destruct (decide (u <= 2 ^ 32 - 1)%Z);
        repeat case_decide; simpl; try done; try lia; f_equal; lia.
  - specialize (Hloop ltac:(lia) ltac:(unfold maxUint64; lia)). simpl fmap.
    pose proof (ParseUint_loop_range (2 ^ 32 - 1) (String c s) 0) as Hrange.
    destruct (ParseUint_loop (String c s) (2 ^ 32 - 1) 0) as [un [[]|]]; [done| |done].
    simpl in Hrange. rewrite (Hrange eq_refl).
    change (2 ^ (32 - 1))%Z with (2 ^ 31)%Z.
    destruct (bool_decide (c0 = "-"%char));
      repeat case_decide; simpl; try done; exfalso; intuition lia.
Qed.

End StrconvFacts.

Import StrconvFacts Sample.

(** * Slices and the store invariant *)

(** A header that fits the heap: its array exists, has the capacity the
    header says, and holds the elements. *)
Definition okSlice (m : Arrays) (s : Slice) : Prop :=
  base s < length m /\ len s <= cap s /\ cap s = length (backing m s).

(** [s] cannot be written through while [t] is read: they are over different
    arrays, or [s] has no room at all. *)
Definition apart (s t : Slice) : Prop := base s <> base t \/ cap s = 0.

(** The heap as every pass finds and leaves it. *)
Record wfMemory (st : Memory) : Prop := mkWfMemory {
  wf_zerobase : arrays st !! 0 = Some [];
  wf_fetch : okSlice (arrays st) (FetchMilliseconds (chartData st));
  wf_transmit : forall p d, objects st !! p = Some d ->
                  okSlice (arrays st) (TransmitBytes d);
  wf_receive : forall p d, objects st !! p = Some d ->
                  okSlice (arrays st) (ReceiveBytes d);
  wf_apart : forall p d, objects st !! p = Some d ->
                  apart (TransmitBytes d) (FetchMilliseconds (chartData st))
}.

Lemma backing_fresh (m : Arrays) a s :
  base s = length m -> backing (m ++ [a]) s = a.
Proof.
  intros H. unfold backing. rewrite H, lookup_app_r by lia.
  by rewrite Nat.sub_diag.
Qed.

Lemma backing_old (m : Arrays) a s :
  base s < length m -> backing (m ++ [a]) s = backing m s.
Proof. intros H. unfold backing. by rewrite lookup_app_l. Qed.

Lemma backing_insert_eq (m : Arrays) i a s :
  base s = i -> i < length m -> backing (<[i := a]> m) s = a.
Proof. intros H Hi. unfold backing. by rewrite H, list_lookup_insert_eq. Qed.

Lemma backing_insert_ne (m : Arrays) i a s :
  base s <> i -> backing (<[i := a]> m) s = backing m s.
Proof. intros H. unfold backing. by rewrite list_lookup_insert_ne. Qed.

Section Slices.

Variable growslice : nat -> nat -> nat.

Lemma append_len m s x : len (snd (append growslice m s x)) = S (len s).
Proof. unfold append. by case_decide. Qed.

Lemma append_length m s x : length m <= length (fst (append growslice m s x)).
Proof.
  unfold append. case_decide; cbn [fst snd]; [by rewrite length_insert|].
  rewrite length_app. lia.
Qed.

(** A header that [append] returns is over the same array or over a new one. *)
Lemma append_base m s x :
  base (snd (append growslice m s x)) = base s /\ len s < cap s \/
  base (snd (append growslice m s x)) = length m.
Proof. unfold append. case_decide; cbn; auto. Qed.

Lemma append_zerobase m s x :
  okSlice m s -> m !! 0 = Some [] -> fst (append growslice m s x) !! 0 = Some [].
Proof.
  intros (Hb & Hl & Hc) H0. unfold append. case_decide; cbn [fst snd].
  - rewrite list_lookup_insert_ne; [done|]. intros Heq.
    unfold backing in Hc. rewrite Heq, H0 in Hc. simpl in Hc. lia.
  - rewrite lookup_app_l; [done|]. by apply lookup_lt_Some in H0.
Qed.

(** No array changes its size. *)
Lemma append_backing_length m s x t :
  base t < length m ->
  length (backing (fst (append growslice m s x)) t) = length (backing m t).
Proof.
  intros Ht. unfold append. case_decide; cbn [fst snd].
  - destruct (decide (base t = base s)) as [Heq|Hne].
    + rewrite backing_insert_eq by (done || lia).
      rewrite length_insert. unfold backing. by rewrite Heq.
    + by rewrite backing_insert_ne.
  - by rewrite backing_old.
Qed.

Lemma append_okSlice_other m s x t :
  okSlice m t -> okSlice (fst (append growslice m s x)) t.
Proof.
  intros (Hb & Hl & Hc). split; [|split; [done|]].
  - pose proof (append_length m s x). lia.
  - by rewrite append_backing_length.
Qed.

Lemma append_okSlice m s x :
  okSlice m s ->
  okSlice (fst (append growslice m s x)) (snd (append growslice m s x)).
Proof.
  intros Hok. pose proof Hok as (Hb & Hl & Hc).
  pose proof (append_okSlice_other m s x s Hok) as (Hb' & _ & Hc').
  revert Hb' Hc'. unfold append. case_decide; cbn [fst snd]; intros Hb' Hc'.
  - split; [done|]. split; [cbn; lia|]. exact Hc'.
  - unfold okSlice. cbn [base len cap].
    rewrite backing_fresh by done.
    rewrite !length_app. cbn [length]. rewrite length_replicate.
    unfold elems. rewrite length_take. lia.
Qed.

(** The returned header reads the old elements and then the new one. *)
Lemma append_elems m s x :
  okSlice m s ->
  elems (fst (append growslice m s x)) (snd (append growslice m s x))
  = elems m s ++ [x].
Proof.
  intros (Hb & Hl & Hc). unfold append. case_decide; cbn [fst snd].
  - unfold elems. cbn [base len]. rewrite backing_insert_eq by done.
    rewrite (take_S_r _ _ x).
    + by rewrite take_insert_ge by lia.
    + apply list_lookup_insert_eq. lia.
  - unfold elems at 1. cbn [len]. rewrite backing_fresh by done.
    assert (Hlen : length (elems m s) = len s).
    { unfold elems. rewrite length_take. lia. }
    rewrite (cons_middle x), app_assoc.
    rewrite take_app_le by (rewrite length_app; cbn; lia).
    rewrite take_ge; [done|]. rewrite length_app. cbn. lia.
Qed.

(** A slice read through another header keeps its elements when the write
    lands elsewhere: in another array, or past its length. *)
Lemma append_elems_other m s x t :
  base t < length m ->
  apart s t \/ len t <= len s ->
  elems (fst (append growslice m s x)) t = elems m t.
Proof.
  intros Ht Hsep. unfold append, elems. case_decide; cbn [fst snd].
  - destruct (decide (base t = base s)) as [Heq|Hne].
    + rewrite backing_insert_eq by (done || lia).
      assert (len t <= len s) by (unfold apart in Hsep; lia).
      rewrite take_insert_ge by lia. unfold backing. by rewrite Heq.
    + by rewrite backing_insert_ne.
  - by rewrite backing_old.
Qed.

End Slices.

(** The row loop of [fetchDevices], one turn unfolded. *)
Lemma devicesLoop_turn st tr :
  devicesLoop st (Some tr)
  = match devicesBody st tr with
    | (st', None) => Panicked st'
    | (st', Some tr') => devicesLoop st' (findFollowupSibling tr')
    end.
Proof.
  simp devicesLoop. unfold inspect.
  enough (Hgen : forall r (E : devicesBody st tr = r),
            devicesLoop_unfold_clause_2 st tr (exist _ r E)
            = match r with
              | (st', None) => Panicked st'
              | (st', Some tr') => devicesLoop st' (findFollowupSibling tr')
              end) by apply Hgen.
  by intros [st' [tr'|]] E; simp devicesLoop.
Qed.

(** * Invariants of the registry pass *)

Lemma okSlice_emptySlice (m : Arrays) : m !! 0 = Some [] -> okSlice m emptySlice.
Proof.
  intros H0. unfold okSlice, backing. cbn. rewrite H0. cbn.
  apply lookup_lt_Some in H0. lia.
Qed.

Lemma wfMemory_initial : wfMemory initial.
Proof.
  constructor; cbn; try done.
  by apply okSlice_emptySlice.
Qed.

Lemma lookup_snoc_inv {A} (l : list A) (x y : A) i :
  (l ++ [x]) !! i = Some y -> l !! i = Some y \/ (i = length l /\ y = x).
Proof.
  intros H. destruct (decide (i < length l)) as [Hlt|Hge].
  - left. by rewrite lookup_app_l in H.
  - right. rewrite lookup_app_r in H by lia.
    destruct (i - length l) as [|k] eqn:Hk; cbn in H; [|done].
    injection H as <-. split; [lia|done].
Qed.

Lemma register_wf st mac name : wfMemory st -> wfMemory (register st mac name).
Proof.
  intros [H0 Hts Htx Hrx Hap]. unfold register. constructor; cbn; try done.
  - intros p d Hd. apply lookup_snoc_inv in Hd as [Hd|[_ ->]]; [by eapply Htx|].
    by apply okSlice_emptySlice.
  - intros p d Hd. apply lookup_snoc_inv in Hd as [Hd|[_ ->]]; [by eapply Hrx|].
    by apply okSlice_emptySlice.
  - intros p d Hd. apply lookup_snoc_inv in Hd as [Hd|[_ ->]]; [by eapply Hap|].
    by right.
Qed.

(** Whatever registering an address that is not in the map keeps, the
    registry pass keeps, however it ends. *)
Section RegistryInvariant.

Variable P : Memory -> Prop.
Hypothesis P_register : forall st mac name,
  P st -> macAddressToDevice (chartData st) !! mac = None ->
  P (register st mac name).

Lemma devicesBody_invariant st tr : P st -> P (fst (devicesBody st tr)).
Proof.
  intros H. unfold devicesBody.
  repeat case_match; cbn; try done. by apply P_register.
Qed.

Lemma devicesLoop_invariant st tr : P st -> P (stateOf (devicesLoop st tr)).
Proof.
  remember (remaining tr) as n eqn:Hn. revert st tr Hn.
  induction n as [n IH] using lt_wf_ind. intros st [tr|] Hn HP; [|done].
  rewrite devicesLoop_turn.
  pose proof (devicesBody_invariant st tr HP) as HP'.
  destruct (devicesBody st tr) as [st' [tr'|]] eqn:E; [|done].
  eapply IH; [|done|done].
  pose proof (devicesBody_remaining _ _ _ _ E).
  pose proof (findFollowupSibling_remaining tr'). lia.
Qed.

Lemma fetchDevices_invariant st fetched :
  P st -> P (stateOf (fetchDevices st fetched)).
Proof.
  intros H. unfold fetchDevices. destruct fetched as [doc|err]; [|done].
  destruct (findDescendant doc isDevicesTable); [|done].
  by apply devicesLoop_invariant.
Qed.

End RegistryInvariant.

(** * Invariants of the statistics pass *)

Section Statistics.

Variable growslice : nat -> nat -> nat.

Lemma recordFetch_wf st ms : wfMemory st -> wfMemory (recordFetch growslice st ms).
Proof.
  intros [H0 Hts Htx Hrx Hap]. unfold recordFetch. constructor; cbn.
  - by apply append_zerobase.
  - by apply append_okSlice.
  - intros p d Hd. apply append_okSlice_other. by eapply Htx.
  - intros p d Hd. apply append_okSlice_other. by eapply Hrx.
  - intros p d Hd. destruct (Hap p d Hd) as [Hne|Hcap]; [|by right]. left.
    destruct (Htx p d Hd) as (Hb & _).
    destruct (append_base growslice (arrays st) (FetchMilliseconds (chartData st)) ms)
      as [[-> _]| ->]; [done|lia].
Qed.

Lemma recordFetch_elems st ms :
  wfMemory st ->
  let st' := recordFetch growslice st ms in
  elems (arrays st') (FetchMilliseconds (chartData st'))
  = elems (arrays st) (FetchMilliseconds (chartData st)) ++ [ms].
Proof. intros [H0 Hts Htx Hrx Hap]. cbn. by apply append_elems. Qed.

Lemma appendTransmit_wf st p x : wfMemory st -> wfMemory (appendTransmit growslice st p x).
Proof.
  intros Hwf. pose proof Hwf as [H0 Hts Htx Hrx Hap]. unfold appendTransmit.
  destruct (objects st !! p) as [d|] eqn:Hd; [|done].
  pose proof (lookup_lt_Some _ _ _ Hd) as Hp.
  constructor; cbn.
  - apply append_zerobase; [by eapply Htx|done].
  - by apply append_okSlice_other.
  - intros q d' Hq. destruct (decide (q = p)) as [->|Hne].
    + rewrite list_lookup_insert_eq in Hq by done. injection Hq as <-. cbn.
      apply append_okSlice. by eapply Htx.
    + rewrite list_lookup_insert_ne in Hq by done.
      apply append_okSlice_other. by eapply Htx.
  - intros q d' Hq. apply append_okSlice_other. destruct (decide (q = p)) as [->|Hne].
    + rewrite list_lookup_insert_eq in Hq by done. injection Hq as <-. cbn. by eapply Hrx.
    + rewrite list_lookup_insert_ne in Hq by done. by eapply Hrx.
  - intros q d' Hq. destruct (decide (q = p)) as [->|Hne].
    + rewrite list_lookup_insert_eq in Hq by done. injection Hq as <-. cbn.
      destruct Hts as (Hb & _).
      destruct (append_base growslice (arrays st) (TransmitBytes d) x)
        as [[Heq Hroom]| Heq]; left; rewrite Heq; [|lia].
      destruct (Hap p d Hd) as [Hne|Hcap]; [done|lia].
    + rewrite list_lookup_insert_ne in Hq by done. by eapply Hap.
Qed.

Lemma appendReceive_wf st p x : wfMemory st -> wfMemory (appendReceive growslice st p x).
Proof.
  intros Hwf. pose proof Hwf as [H0 Hts Htx Hrx Hap]. unfold appendReceive.
  destruct (objects st !! p) as [d|] eqn:Hd; [|done].
  pose proof (lookup_lt_Some _ _ _ Hd) as Hp.
  constructor; cbn.
  - apply append_zerobase; [by eapply Htx|done].
  - by apply append_okSlice_other.
  - intros q d' Hq. apply append_okSlice_other. destruct (decide (q = p)) as [->|Hne].
    + rewrite list_lookup_insert_eq in Hq by done. injection Hq as <-. cbn. by eapply Htx.
    + rewrite list_lookup_insert_ne in Hq by done. by eapply Htx.
  - intros q d' Hq. destruct (decide (q = p)) as [->|Hne].
    + rewrite list_lookup_insert_eq in Hq by done. injection Hq as <-. cbn.
      apply append_okSlice. by eapply Htx.
    + rewrite list_lookup_insert_ne in Hq by done.
      apply append_okSlice_other. by eapply Hrx.
  - intros q d' Hq. destruct (decide (q = p)) as [->|Hne].
    + rewrite list_lookup_insert_eq in Hq by done. injection Hq as <-. cbn. by eapply Hap.
    + rewrite list_lookup_insert_ne in Hq by done. by eapply Hap.
Qed.

(** Whatever both appends keep, the loops keep. *)
Section Invariant.

Variable P : Memory -> Prop.
Hypothesis P_transmit : forall st p x, P st -> P (appendTransmit growslice st p x).
Hypothesis P_receive : forall st p x, P st -> P (appendReceive growslice st p x).

Lemma parseAndAppend_transmit_invariant st td dev columnIndex column :
  P st -> P (parseAndAppend (appendTransmit growslice) st td dev columnIndex column).
Proof.
  intros H. unfold parseAndAppend. destruct dev; [|done].
  case_decide; [|done]. destruct (ParseInt _ _) as [bytes [e|]]; [done|]. by apply P_transmit.
Qed.

Lemma parseAndAppend_receive_invariant st td dev columnIndex column :
  P st -> P (parseAndAppend (appendReceive growslice) st td dev columnIndex column).
Proof.
  intros H. unfold parseAndAppend. destruct dev; [|done].
  case_decide; [|done]. destruct (ParseInt _ _) as [bytes [e|]]; [done|]. by apply P_receive.
Qed.

Lemma cellBody_invariant st td columnIndex dev :
  P st -> P (fst (cellBody growslice st td columnIndex dev)).
Proof.
  intros H. unfold cellBody. cbn [fst].
  by apply parseAndAppend_receive_invariant, parseAndAppend_transmit_invariant.
Qed.

Lemma cellsLoop_invariant st td columnIndex dev :
  P st -> P (cellsLoop growslice st td columnIndex dev).
Proof.
  funelim (cellsLoop growslice st td columnIndex dev); [|done].
  intros HP. apply H. by apply cellBody_invariant.
Qed.

Lemma rowsLoop_invariant st tr : P st -> P (rowsLoop growslice st tr).
Proof.
  funelim (rowsLoop growslice st tr); [|done].
  intros HP. apply H. by apply cellsLoop_invariant.
Qed.

End Invariant.

Lemma fetchLanStatistics_invariant (P : Memory -> Prop) st now fetched :
  (forall st p x, P st -> P (appendTransmit growslice st p x)) ->
  (forall st p x, P st -> P (appendReceive growslice st p x)) ->
  P (recordFetch growslice st (now ÷ 1000000)%Z) ->
  P (fst (fetchLanStatistics growslice st now fetched)).
Proof.
  intros Htx Hrx H. unfold fetchLanStatistics.
  destruct fetched as [doc|err]; [|done].
  destruct (findDescendant doc isStatisticsTable) as [table|]; [|done].
  destruct (findDescendant (here table) isTr) as [tr|]; [|done].
  cbn [fst]. by apply rowsLoop_invariant.
Qed.

(** The stores the program can be in: the one [main] builds, and the one any
    call of a pass leaves, whether it returns or panics. *)
Inductive reachable : Memory -> Prop :=
  | reachable_initial : reachable initial
  | reachable_fetchDevices st fetched :
      reachable st -> reachable (stateOf (fetchDevices st fetched))
  | reachable_fetchLanStatistics st now fetched :
      reachable st -> reachable (fst (fetchLanStatistics growslice st now fetched)).

Lemma reachable_wf st : reachable st -> wfMemory st.
Proof.
  induction 1 as [|st fetched _ IH|st now fetched _ IH].
  - apply wfMemory_initial.
  - apply (fetchDevices_invariant wfMemory); [|done].
    intros. by apply register_wf.
  - apply (fetchLanStatistics_invariant wfMemory).
    + intros. by apply appendTransmit_wf.
    + intros. by apply appendReceive_wf.
    + by apply recordFetch_wf.
Qed.

(** The statistics loops leave [chartData] and the timestamps as they are. *)
Definition sameFetches (st0 st : Memory) : Prop :=
  wfMemory st /\ chartData st = chartData st0 /\
  elems (arrays st) (FetchMilliseconds (chartData st))
  = elems (arrays st0) (FetchMilliseconds (chartData st0)).

Lemma sameFetches_appendTransmit st0 st p x :
  sameFetches st0 st -> sameFetches st0 (appendTransmit growslice st p x).
Proof.
  intros (Hwf & Hc & He). split; [by apply appendTransmit_wf|].
  unfold appendTransmit. destruct (objects st !! p) as [d|] eqn:Hd; [|done].
  cbn. split; [done|]. rewrite <- He. destruct Hwf as [H0 Hts Htx Hrx Hap].
  apply append_elems_other; [apply Hts|]. left. by eapply Hap.
Qed.

Lemma sameFetches_appendReceive st0 st p x :
  sameFetches st0 st -> sameFetches st0 (appendReceive growslice st p x).
Proof.
  intros (Hwf & Hc & He). split; [by apply appendReceive_wf|].
  unfold appendReceive. destruct (objects st !! p) as [d|] eqn:Hd; [|done].
  cbn. split; [done|]. rewrite <- He. destruct Hwf as [H0 Hts Htx Hrx Hap].
  apply append_elems_other; [apply Hts|]. left. by eapply Hap.
Qed.

Lemma cellsLoop_no_device st : forall n td columnIndex,
  remaining td <= n -> columnIndex <> 0 ->
  cellsLoop growslice st td columnIndex None = st.
Proof.
  induction n as [|n IH]; intros [td|] columnIndex Hn Hc; simp cellsLoop; try done.
  { cbn in Hn. lia. }
  unfold cellBody. rewrite decide_False by done. cbn.
  apply IH; [|done]. pose proof (findFollowupSibling_remaining td). cbn in *. lia.
Qed.

End Statistics.

(** * The claims about single calls *)

(** C6. When the table a pass looks for is not in the document, the registry
    pass returns nil and leaves the store as it is, and the statistics pass
    returns the error [Table not found]. *)
Theorem absent_table_registry_nil_statistics_error
    (growslice : nat -> nat -> nat) (st : Memory) (now : Z)
    (devicesDoc statisticsDoc : Node) :
  findDescendant devicesDoc isDevicesTable = None ->
  findDescendant statisticsDoc isStatisticsTable = None ->
  fetchDevices st (Parsed devicesDoc) = Returned st None /\
  fetchLanStatistics growslice st now (Parsed statisticsDoc)
  = (recordFetch growslice st (now ÷ 1000000)%Z, Some "Table not found").
Proof.
  intros Hdev Hstat. unfold fetchDevices, fetchLanStatistics.
  by rewrite Hdev, Hstat.
Qed.

Lemma absent_table_witness :
  fetchDevices registered (Parsed (page [])) = Returned registered None /\
  fetchLanStatistics doubling registered 5000000 (Parsed (page []))
  = (recordFetch doubling registered 5, Some "Table not found").
Proof.
  apply (absent_table_registry_nil_statistics_error
           doubling registered 5000000 (page []) (page [])); reflexivity.
Defined.

(** C3. A statistics row whose first cell holds an address that is not in
    the map leaves the whole store as it is, and so every series of every
    device; the row loop goes on from the next row with the same store. *)
Theorem unregistered_row_changes_nothing
    (growslice : nat -> nat -> nat) (st : Memory) (tr td : Cursor) :
  findDescendant (here tr) isTd = Some td ->
  macAddressToDevice (chartData st) !! cellText td = None ->
  rowBody growslice st tr = st /\
  rowsLoop growslice st (Some tr) = rowsLoop growslice st (findFollowupSibling tr).
Proof.
  intros Htd Hmac.
  assert (Hrow : rowBody growslice st tr = st).
  { unfold rowBody. rewrite Htd. simp cellsLoop.
    unfold cellBody. rewrite decide_True by done. rewrite Hmac. cbn.
    by apply (cellsLoop_no_device growslice st (remaining (findFollowupSibling td))). }
  split; [done|]. simp rowsLoop. by rewrite Hrow.
Qed.

(** C4. Every call of the statistics pass from a store the program can be
    in adds exactly one timestamp, the time of the call in milliseconds,
    after the ones recorded before: whatever [fetchAndParse] handed over, and
    also when the call returns an error. *)
Theorem fetchLanStatistics_records_one_timestamp
    (growslice : nat -> nat -> nat) (st : Memory) (now : Z) (fetched : Fetched) :
  reachable growslice st ->
  let st' := fst (fetchLanStatistics growslice st now fetched) in
  elems (arrays st') (FetchMilliseconds (chartData st'))
  = elems (arrays st) (FetchMilliseconds (chartData st)) ++ [(now ÷ 1000000)%Z].
Proof.
  intros Hreach st'. apply reachable_wf in Hreach.
  rewrite <- (recordFetch_elems growslice st _ Hreach).
  apply (fetchLanStatistics_invariant growslice
           (sameFetches (recordFetch growslice st (now ÷ 1000000)%Z))).
  - intros. by apply sameFetches_appendTransmit.
  - intros. by apply sameFetches_appendReceive.
  - split; [by apply recordFetch_wf|done].
Qed.

(** C10. A cell whose trimmed text is a decimal numeral outside the signed
    32-bit range is refused by the parse with a range error, and the turn of
    the cell loop for it leaves the store as it is, in whatever column the
    cell stands. *)
Theorem cell_outside_int32_is_skipped
    (growslice : nat -> nat -> nat) (st : Memory) (td : Cursor)
    (columnIndex : nat) (deviceData : option nat) (v : Z) :
  decimalValue (cellText td) = Some v ->
  ~ inInt32 v ->
  snd (ParseInt (cellText td) 32) = Some ErrRange /\
  fst (cellBody growslice st td columnIndex deviceData) = st.
Proof.
  intros Hv Hout. pose proof (ParseInt32_spec (cellText td)) as Hparse.
  rewrite Hv, decide_False in Hparse by done. split; [done|].
  unfold cellBody, parseAndAppend. cbn [fst].
  destruct (ParseInt (cellText td) 32) as [bytes [e|]]; [|done].
  by repeat case_match.
Qed.

Lemma unregistered_row_witness :
  let tr := mkCursor (statisticsRow "11:22:33:44:55:66" ["1024"; "2048"]) [] in
  let td := mkCursor (cell "11:22:33:44:55:66")
                     (replicate 6 (cell "-") ++ [cell "1024"; cell "2048"]) in
  rowBody doubling registered tr = registered /\
  rowsLoop doubling registered (Some tr)
  = rowsLoop doubling registered (findFollowupSibling tr).
Proof.
  intros tr td.
  apply (unregistered_row_changes_nothing doubling registered tr td); reflexivity.
Defined.

Lemma reachable_registered growslice : reachable growslice registered.
Proof. apply reachable_fetchDevices, reachable_initial. Qed.

Lemma records_one_timestamp_witness :
  let st' := fst (fetchLanStatistics doubling registered 1700000000123456789
                    (Failed "connection refused")) in
  elems (arrays st') (FetchMilliseconds (chartData st'))
  = elems (arrays registered) (FetchMilliseconds (chartData registered))
    ++ [1700000000123%Z].
Proof.
  apply (fetchLanStatistics_records_one_timestamp
           doubling registered 1700000000123456789 (Failed "connection refused")).
  apply reachable_fetchDevices, reachable_initial.
Defined.

Lemma cell_outside_int32_witness :
  let td := mkCursor (cell " 4294967296 ") [] in
  snd (ParseInt (cellText td) 32) = Some ErrRange /\
  fst (cellBody doubling registered td 7 (Some 0)) = registered.
Proof.
  intros td.
  apply (cell_outside_int32_is_skipped doubling registered td 7 (Some 0) 4294967296).
  - reflexivity.
  - unfold inInt32. lia.
Defined.

(** * The two views of the registry *)

(** The map and the list name the same objects: the list holds every
    allocated [DeviceData] once, in allocation order, and the map reaches
    each of them under exactly one address. *)
Record viewsAgree (st : Memory) : Prop := mkViewsAgree {
  va_list : Devices (chartData st) = seq 0 (length (objects st));
  va_map : forall p, (exists mac, macAddressToDevice (chartData st) !! mac = Some p)
                     <-> p < length (objects st);
  va_inj : forall mac1 mac2 p,
             macAddressToDevice (chartData st) !! mac1 = Some p ->
             macAddressToDevice (chartData st) !! mac2 = Some p -> mac1 = mac2;
  va_size : size (macAddressToDevice (chartData st)) = length (Devices (chartData st))
}.

Lemma viewsAgree_initial : viewsAgree initial.
Proof.
  constructor; cbn; try done.
  intros p. split; [|lia]. intros [mac H]. by rewrite lookup_empty in H.
Qed.

Lemma viewsAgree_register st mac name :
  viewsAgree st -> macAddressToDevice (chartData st) !! mac = None ->
  viewsAgree (register st mac name).
Proof.
  intros [Hlist Hmap Hinj Hsize] Hnew. unfold register. constructor; cbn.
  - rewrite Hlist, length_app. cbn. by rewrite Nat.add_1_r, seq_S.
  - intros p. rewrite length_app. cbn. split.
    + intros [mac' H]. destruct (decide (mac = mac')) as [->|Hne].
      * rewrite lookup_insert_eq in H. injection H as <-. lia.
      * rewrite lookup_insert_ne in H by done.
        assert (p < length (objects st)) by (apply Hmap; eauto). lia.
    + intros Hp. destruct (decide (p = length (objects st))) as [->|Hne].
      * exists mac. by rewrite lookup_insert_eq.
      * destruct (proj2 (Hmap p)) as [mac' H]; [lia|]. exists mac'.
        rewrite lookup_insert_ne; [done|]. intros ->. congruence.
  - intros mac1 mac2 p H1 H2.
    destruct (decide (mac = mac1)) as [<-|Hne1], (decide (mac = mac2)) as [<-|Hne2];
      try done.
    + rewrite lookup_insert_eq in H1. rewrite lookup_insert_ne in H2 by done.
      injection H1 as <-.
      assert (length (objects st) < length (objects st)) by (apply Hmap; eauto). lia.
    + rewrite lookup_insert_eq in H2. rewrite lookup_insert_ne in H1 by done.
      injection H2 as <-.
      assert (length (objects st) < length (objects st)) by (apply Hmap; eauto). lia.
    + rewrite lookup_insert_ne in H1, H2 by done. by eapply Hinj.
  - rewrite map_size_insert_None by done. rewrite length_app. cbn. lia.
Qed.

Section Views.

Variable growslice : nat -> nat -> nat.

(** The statistics pass leaves both views as they are and frees no object. *)
Definition sameViews (st0 st : Memory) : Prop :=
  macAddressToDevice (chartData st) = macAddressToDevice (chartData st0) /\
  Devices (chartData st) = Devices (chartData st0) /\
  length (objects st) = length (objects st0).

Lemma sameViews_appendTransmit st0 st p x :
  sameViews st0 st -> sameViews st0 (appendTransmit growslice st p x).
Proof.
  intros (Hm & Hd & Hl). unfold appendTransmit.
  destruct (objects st !! p); [|done]. unfold sameViews. cbn.
  by rewrite length_insert.
Qed.

Lemma sameViews_appendReceive st0 st p x :
  sameViews st0 st -> sameViews st0 (appendReceive growslice st p x).
Proof.
  intros (Hm & Hd & Hl). unfold appendReceive.
  destruct (objects st !! p); [|done]. unfold sameViews. cbn.
  by rewrite length_insert.
Qed.

Lemma fetchLanStatistics_sameViews st now fetched :
  sameViews st (fst (fetchLanStatistics growslice st now fetched)).
Proof.
  apply (fetchLanStatistics_invariant growslice (sameViews st)).
  - intros. by apply sameViews_appendTransmit.
  - intros. by apply sameViews_appendReceive.
  - done.
Qed.

Lemma viewsAgree_sameViews st0 st : sameViews st0 st -> viewsAgree st0 -> viewsAgree st.
Proof.
  intros (Hm & Hd & Hl) [Hlist Hmap Hinj Hsize].
  constructor; rewrite ?Hm, ?Hd, ?Hl; done.
Qed.

Lemma reachable_viewsAgree st : reachable growslice st -> viewsAgree st.
Proof.
  induction 1 as [|st fetched _ IH|st now fetched _ IH].
  - apply viewsAgree_initial.
  - apply (fetchDevices_invariant viewsAgree); [|done].
    intros. by apply viewsAgree_register.
  - eapply viewsAgree_sameViews; [apply fetchLanStatistics_sameViews|done].
Qed.

(** What a registry pass adds: objects with two empty series, each at the
    end of the list and under an address the map did not have. *)
Definition grownFrom (st0 st : Memory) : Prop :=
  exists added : list (string * string),
    objects st
    = objects st0 ++ map (fun e => mkDeviceData (snd e) emptySlice emptySlice) added /\
    Devices (chartData st)
    = Devices (chartData st0) ++ seq (length (objects st0)) (length added) /\
    (forall mac p, macAddressToDevice (chartData st) !! mac = Some p <->
       macAddressToDevice (chartData st0) !! mac = Some p \/
       exists i name, added !! i = Some (mac, name) /\ p = length (objects st0) + i) /\
    NoDup (map fst added) /\
    Forall (fun e => macAddressToDevice (chartData st0) !! fst e = None) added /\
    FetchMilliseconds (chartData st) = FetchMilliseconds (chartData st0) /\
    arrays st = arrays st0.

Lemma grownFrom_refl st : grownFrom st st.
Proof.
  exists []. cbn. rewrite !app_nil_r. repeat split; try done.
  - intros H. by left.
  - intros [H|(i & name & H & _)]; [done|]. by rewrite lookup_nil in H.
  - constructor.
Qed.

Lemma grownFrom_register st0 st mac name :
  grownFrom st0 st -> macAddressToDevice (chartData st) !! mac = None ->
  grownFrom st0 (register st mac name).
Proof.
  intros (added & Hobj & Hdev & Hmap & Hnd & Hfresh & Hts & Harr) Hnew.
  exists (added ++ [(mac, name)]). unfold register. cbn.
  assert (Hlen : length (objects st) = length (objects st0) + length added).
  { by rewrite Hobj, length_app, length_map. }
  assert (Hold : macAddressToDevice (chartData st0) !! mac = None).
  { destruct (macAddressToDevice (chartData st0) !! mac) as [p|] eqn:Hp; [|done].
    assert (macAddressToDevice (chartData st) !! mac = Some p) by (apply Hmap; by left).
    congruence. }
  assert (Hnotin : forall i name', added !! i = Some (mac, name') -> False).
  { intros i name' Hi.
    assert (macAddressToDevice (chartData st) !! mac
            = Some (length (objects st0) + i)); [|congruence].
    apply Hmap. right. eauto. }
  repeat split.
  - by rewrite Hobj, map_app, app_assoc.
  - rewrite Hdev, length_app. cbn. rewrite Nat.add_1_r, seq_S, app_assoc.
    by rewrite Hlen.
  - destruct (decide (mac = mac0)) as [<-|Hne].
    + rewrite lookup_insert_eq. intros [= <-]. right.
      exists (length added), name. split; [|done].
      rewrite lookup_app_r by lia. by rewrite Nat.sub_diag.
    + rewrite lookup_insert_ne by done. intros H. apply Hmap in H.
      destruct H as [H|(i & name' & Hi & ->)]; [by left|].
      right. exists i, name'. split; [|done].
      by apply lookup_app_l_Some.
  - destruct (decide (mac = mac0)) as [<-|Hne].
    + rewrite lookup_insert_eq. intros [H|(i & name' & Hi & ->)]; [congruence|].
      apply lookup_snoc_inv in Hi as [Hi|[-> _]]; [|by rewrite Hlen].
      exfalso. by eapply Hnotin.
    + rewrite lookup_insert_ne by done. intros [H|(i & name' & Hi & ->)].
      * apply Hmap. by left.
      * apply lookup_snoc_inv in Hi as [Hi|[_ Heq]]; [|congruence].
        apply Hmap. right. eauto.
  - rewrite map_app. cbn. apply NoDup_app. split; [done|]. split; [|apply NoDup_singleton].
    intros mac' Hin ->%list_elem_of_singleton.
    apply list_elem_of_fmap in Hin as ([mac' name'] & Heq & Hin). cbn in Heq. subst mac'.
    apply list_elem_of_lookup in Hin as [i Hi]. by eapply Hnotin.
  - apply Forall_app. split; [done|]. by constructor.
  - done.
  - done.
Qed.

Lemma fetchDevices_grownFrom st fetched :
  grownFrom st (stateOf (fetchDevices st fetched)).
Proof.
  apply (fetchDevices_invariant (grownFrom st)); [|apply grownFrom_refl].
  intros. by apply grownFrom_register.
Qed.

End Views.

(** C7. In every store the program can be in, the map and the list hold the
    same objects: an object is in the list exactly when the map has it under
    some address, the list holds it once and the map under one address only,
    and it is an allocated [DeviceData]. The statistics pass leaves both
    views as they are. Whatever the registry pass adds to the list is a new
    object with two empty series that the map has too. *)
Theorem map_and_list_hold_the_same_records
    (growslice : nat -> nat -> nat) (st : Memory) :
  reachable growslice st ->
  (forall p, p ∈ Devices (chartData st)
             <-> exists mac, macAddressToDevice (chartData st) !! mac = Some p) /\
  NoDup (Devices (chartData st)) /\
  (forall mac1 mac2 p,
     macAddressToDevice (chartData st) !! mac1 = Some p ->
     macAddressToDevice (chartData st) !! mac2 = Some p -> mac1 = mac2) /\
  (forall p, p ∈ Devices (chartData st) -> is_Some (objects st !! p)) /\
  (forall now fetched,
     let st' := fst (fetchLanStatistics growslice st now fetched) in
     macAddressToDevice (chartData st') = macAddressToDevice (chartData st) /\
     Devices (chartData st') = Devices (chartData st)) /\
  (forall fetched p,
     let st' := stateOf (fetchDevices st fetched) in
     p ∈ Devices (chartData st') -> p ∉ Devices (chartData st) ->
     exists mac name,
       macAddressToDevice (chartData st') !! mac = Some p /\
       macAddressToDevice (chartData st) !! mac = None /\
       objects st' !! p = Some (mkDeviceData name emptySlice emptySlice)).
Proof.
  intros Hreach. destruct (reachable_viewsAgree growslice st Hreach)
    as [Hlist Hmap Hinj Hsize].
  assert (Hin : forall p, p ∈ Devices (chartData st) <-> p < length (objects st)).
  { intros p. rewrite Hlist, elem_of_seq. lia. }
  split; [|split; [|split; [|split; [|split]]]].
  - intros p. by rewrite Hin, Hmap.
  - rewrite Hlist. apply NoDup_seq.
  - exact Hinj.
  - intros p Hp. apply lookup_lt_is_Some. by apply Hin.
  - intros now fetched st'.
    destruct (fetchLanStatistics_sameViews growslice st now fetched) as (Hm & Hd & _).
    by split.
  - intros fetched p st' Hp Hnew.
    destruct (fetchDevices_grownFrom st fetched)
      as (added & Hobj & Hdev & Hmap' & Hnd & Hfresh & _).
    fold st' in Hobj, Hdev, Hmap'. rewrite Hdev in Hp.
    apply elem_of_app in Hp as [Hp|Hp]; [done|].
    apply elem_of_seq in Hp.
    destruct (lookup_lt_is_Some_2 added (p - length (objects st))) as [[mac name] Hi];
      [lia|].
    exists mac, name. split; [|split].
    + apply Hmap'. right. exists (p - length (objects st)), name. split; [done|lia].
    + by apply (proj1 (Forall_lookup _ _) Hfresh _ _ Hi).
    + rewrite Hobj, lookup_app_r by lia. by rewrite list_lookup_fmap, Hi.
Qed.

Lemma same_records_witness :
  let st := fst (fetchLanStatistics doubling registered 1700000000123456789
                   (Parsed (statisticsPage [statisticsRow laptop ["1024"; "2048"]]))) in
  (forall p, p ∈ Devices (chartData st)
             <-> exists mac, macAddressToDevice (chartData st) !! mac = Some p) /\
  NoDup (Devices (chartData st)) /\
  (forall mac1 mac2 p,
     macAddressToDevice (chartData st) !! mac1 = Some p ->
     macAddressToDevice (chartData st) !! mac2 = Some p -> mac1 = mac2) /\
  (forall p, p ∈ Devices (chartData st) -> is_Some (objects st !! p)) /\
  (forall now fetched,
     let st' := fst (fetchLanStatistics doubling st now fetched) in
     macAddressToDevice (chartData st') = macAddressToDevice (chartData st) /\
     Devices (chartData st') = Devices (chartData st)) /\
  (forall fetched p,
     let st' := stateOf (fetchDevices st fetched) in
     p ∈ Devices (chartData st') -> p ∉ Devices (chartData st) ->
     exists mac name,
       macAddressToDevice (chartData st') !! mac = Some p /\
       macAddressToDevice (chartData st) !! mac = None /\
       objects st' !! p = Some (mkDeviceData name emptySlice emptySlice)).
Proof.
  intros st. apply (map_and_list_hold_the_same_records doubling st).
  apply reachable_fetchLanStatistics, reachable_fetchDevices, reachable_initial.
Defined.

(** * Sibling chains *)

(** The later siblings with the atom [a], each with its own later siblings. *)
Fixpoint chainFrom (a : Atom) (siblings : list Node) : list Cursor :=
  match siblings with
  | [] => []
  | sibling :: rest =>
      if decide (a = DataAtom sibling)
      then mkCursor sibling rest :: chainFrom a rest
      else chainFrom a rest
  end.

(** The values a loop variable takes when it steps by [findFollowupSibling]
    until it is nil. *)
Definition chain (c : option Cursor) : list Cursor :=
  match c with
  | None => []
  | Some c => c :: chainFrom (DataAtom (here c)) (later c)
  end.

Lemma chain_followupFrom a l : chain (followupFrom a l) = chainFrom a l.
Proof.
  induction l as [|n l IH]; [done|]. cbn.
  destruct (decide (a = DataAtom n)) as [->|Hne]; [done|exact IH].
Qed.

Lemma chain_step c : chain (Some c) = c :: chain (findFollowupSibling c).
Proof. unfold findFollowupSibling. by rewrite chain_followupFrom. Qed.

Lemma chain_remaining c : length (chain c) <= remaining c.
Proof.
  destruct c as [c|]; [|done]. cbn. apply le_n_S.
  generalize (DataAtom (here c)). intros a.
  induction (later c) as [|n l IH]; [done|]. cbn. case_decide; cbn; lia.
Qed.

(** Induction over the values of such a loop variable. *)
Lemma chain_ind (Q : option Cursor -> Prop) :
  Q None ->
  (forall c, Q (findFollowupSibling c) -> Q (Some c)) ->
  forall c, Q c.
Proof.
  intros Hnil Hstep c. remember (remaining c) as n eqn:Hn. revert c Hn.
  induction n as [n IH] using lt_wf_ind. intros [c|] Hn; [|done].
  apply Hstep. eapply IH; [|done].
  pose proof (findFollowupSibling_remaining c). lia.
Qed.

Section Folds.

Variable growslice : nat -> nat -> nat.

(** The cell loop over the cells of a row, and the row loop over the rows. *)
Fixpoint cellsFold (st : Memory) (tds : list Cursor) (columnIndex : nat)
    (deviceData : option nat) : Memory :=
  match tds with
  | [] => st
  | td :: rest =>
      cellsFold (fst (cellBody growslice st td columnIndex deviceData)) rest
                (S columnIndex)
                (snd (cellBody growslice st td columnIndex deviceData))
  end.

Lemma cellsLoop_chain st td columnIndex deviceData :
  cellsLoop growslice st td columnIndex deviceData
  = cellsFold st (chain td) columnIndex deviceData.
Proof.
  revert st columnIndex deviceData. induction td as [|td IH] using chain_ind;
    intros st columnIndex deviceData; simp cellsLoop; [done|].
  by rewrite chain_step, IH.
Qed.

Lemma rowsLoop_chain st tr :
  rowsLoop growslice st tr = foldl (rowBody growslice) st (chain tr).
Proof.
  revert st. induction tr as [|tr IH] using chain_ind; intros st; simp rowsLoop; [done|].
  by rewrite chain_step, IH.
Qed.

End Folds.

(** * The registry pass on a well-formed table *)

(** The address a row announces: the text of its first [td], when the row
    has a [th] that reads [MAC Address]. *)
Definition rowAddress (tr : Cursor) : option string :=
  match findDescendant (here tr) isMacTh with
  | None => None
  | Some _ => cellText <$> findDescendant (here tr) isTd
  end.

(** A well-formed listing: every row that announces an address is followed
    at once by a row that announces none and has a [td], the name row; any
    other row announces no address. *)
Inductive wellFormedRows : list Cursor -> Prop :=
  | wellFormed_nil : wellFormedRows []
  | wellFormed_other tr rows :
      rowAddress tr = None -> wellFormedRows rows -> wellFormedRows (tr :: rows)
  | wellFormed_pair tr tr' rows mac :
      rowAddress tr = Some mac ->
      rowAddress tr' = None -> is_Some (findDescendant (here tr') isTd) ->
      wellFormedRows rows -> wellFormedRows (tr :: tr' :: rows).

(** The addresses a listing announces, with repetitions. *)
Definition addresses (rows : list Cursor) : list string := omap rowAddress rows.

Lemma chain_cons_inv c tr rows :
  chain c = tr :: rows -> c = Some tr /\ chain (findFollowupSibling tr) = rows.
Proof.
  destruct c as [c|]; [|done]. rewrite chain_step. by intros [= -> ->].
Qed.

Lemma devicesBody_other st tr :
  rowAddress tr = None -> devicesBody st tr = (st, Some tr).
Proof.
  unfold rowAddress, devicesBody. destruct (findDescendant (here tr) isMacTh); [|done].
  by destruct (findDescendant (here tr) isTd).
Qed.

Lemma devicesBody_registered st tr mac p :
  rowAddress tr = Some mac ->
  macAddressToDevice (chartData st) !! mac = Some p ->
  devicesBody st tr = (st, Some tr).
Proof.
  unfold rowAddress, devicesBody. destruct (findDescendant (here tr) isMacTh); [|done].
  destruct (findDescendant (here tr) isTd) as [td|]; [|done]. cbn.
  intros [= ->] ->. done.
Qed.

Lemma devicesBody_new st tr tr' td' mac :
  rowAddress tr = Some mac ->
  macAddressToDevice (chartData st) !! mac = None ->
  findFollowupSibling tr = Some tr' ->
  findDescendant (here tr') isTd = Some td' ->
  devicesBody st tr
  = (register st mac (RemoveByte (cellText td') newline), Some tr').
Proof.
  unfold rowAddress, devicesBody. destruct (findDescendant (here tr) isMacTh); [|done].
  destruct (findDescendant (here tr) isTd) as [td|]; [|done]. cbn.
  intros [= ->] -> -> ->. done.
Qed.

Lemma devicesLoop_wellFormed rows :
  wellFormedRows rows ->
  forall st tr, chain tr = rows ->
  exists st',
    devicesLoop st tr = Returned st' None /\
    dom (macAddressToDevice (chartData st'))
    = dom (macAddressToDevice (chartData st)) ∪ list_to_set (addresses rows) /\
    (list_to_set (addresses rows) ⊆ dom (macAddressToDevice (chartData st)) ->
     st' = st).
Proof.
  induction 1 as [|tr0 rows Hnone _ IH|tr0 tr1 rows mac Hmac Hnone [td' Htd'] _ IH];
    intros st tr Hchain.
  - destruct tr as [tr|]; [done|]. exists st. simp devicesLoop.
    split; [done|]. split; [|done]. cbn. set_solver.
  - apply chain_cons_inv in Hchain as [-> Hchain].
    rewrite devicesLoop_turn, devicesBody_other by done.
    destruct (IH st _ Hchain) as (st' & Hrun & Hdom & Hsame).
    exists st'. unfold addresses in *. cbn. rewrite Hnone. by repeat split.
  - apply chain_cons_inv in Hchain as [-> Hchain].
    apply chain_cons_inv in Hchain as [Hnext Hchain].
    assert (Haddr : addresses (tr0 :: tr1 :: rows) = mac :: addresses rows).
    { unfold addresses. cbn. by rewrite Hmac, Hnone. }
    rewrite Haddr. cbn [list_to_set].
    rewrite devicesLoop_turn.
    destruct (macAddressToDevice (chartData st) !! mac) as [p|] eqn:Hp.
    + rewrite (devicesBody_registered st tr0 mac p) by done.
      rewrite Hnext, devicesLoop_turn, devicesBody_other by done.
      destruct (IH st _ Hchain) as (st' & Hrun & Hdom & Hsame).
      exists st'. split; [done|]. split.
      * rewrite Hdom. apply (elem_of_dom_2 (D := gset string)) in Hp. set_solver.
      * intros Hsub. apply Hsame. set_solver.
    + rewrite (devicesBody_new st tr0 tr1 td' mac) by done.
      destruct (IH (register st mac (RemoveByte (cellText td') newline)) _ Hchain)
        as (st' & Hrun & Hdom & Hsame).
      exists st'. split; [done|]. split.
      * rewrite Hdom. unfold register. cbn. rewrite dom_insert_L. set_solver.
      * intros Hsub. apply (not_elem_of_dom (D := gset string)) in Hp. set_solver.
Qed.

(** Line 130 continues with [tr == nil] when the last row of the table
    announces an address that is not registered: the post statement then
    dereferences nil and the pass panics, with the store as it was. *)
Lemma devicesLoop_panics_without_name_row st tr mac :
  rowAddress tr = Some mac ->
  macAddressToDevice (chartData st) !! mac = None ->
  findFollowupSibling tr = None ->
  devicesLoop st (Some tr) = Panicked st.
Proof.
  intros Hmac Hnew Hlast. rewrite devicesLoop_turn.
  unfold rowAddress in Hmac. unfold devicesBody.
  destruct (findDescendant (here tr) isMacTh); [|done].
  destruct (findDescendant (here tr) isTd) as [td|]; [|done].
  cbn in Hmac. injection Hmac as ->. by rewrite Hnew, Hlast.
Qed.

Example fetchDevices_panics_on_lone_address :
  fetchDevices initial (Parsed (devicesPage [macRow laptop])) = Panicked initial.
Proof. vm_compute. reflexivity. Qed.

(** C5. A registry pass from a store the program can be in, a first pass or
    a later one, on any document and however it ends, leaves every address
    that is registered with its object, and leaves that object, the
    timestamps and the arrays as they are. On a document whose device table
    is a well-formed listing it returns nil, and afterwards the map holds
    exactly the addresses it held before and the ones the listing announces,
    each under one object that the list holds once, however often the
    listing repeats an address; run again on that document it changes
    nothing at all. *)
Theorem registry_pass_registers_each_address_once
    (growslice : nat -> nat -> nat) (st : Memory) (doc : Node) (table tr : Cursor) :
  reachable growslice st ->
  findDescendant doc isDevicesTable = Some table ->
  findDescendant (here table) isTr = Some tr ->
  wellFormedRows (chain (Some tr)) ->
  let st' := stateOf (fetchDevices st (Parsed doc)) in
  (forall fetched mac p d,
     macAddressToDevice (chartData st) !! mac = Some p ->
     objects st !! p = Some d ->
     let st'' := stateOf (fetchDevices st fetched) in
     macAddressToDevice (chartData st'') !! mac = Some p /\
     objects st'' !! p = Some d /\
     FetchMilliseconds (chartData st'') = FetchMilliseconds (chartData st) /\
     arrays st'' = arrays st) /\
  fetchDevices st (Parsed doc) = Returned st' None /\
  dom (macAddressToDevice (chartData st'))
  = dom (macAddressToDevice (chartData st)) ∪ list_to_set (addresses (chain (Some tr))) /\
  NoDup (Devices (chartData st')) /\
  length (Devices (chartData st')) = size (dom (macAddressToDevice (chartData st'))) /\
  (forall mac, mac ∈ dom (macAddressToDevice (chartData st')) ->
     exists p, macAddressToDevice (chartData st') !! mac = Some p /\
               p ∈ Devices (chartData st') /\ is_Some (objects st' !! p)) /\
  fetchDevices st' (Parsed doc) = Returned st' None.
Proof.
  intros Hreach Htable Htr Hrows st'.
  assert (Hrun : forall st0, fetchDevices st0 (Parsed doc) = devicesLoop st0 (Some tr)).
  { intros st0. unfold fetchDevices. by rewrite Htable, Htr. }
  destruct (devicesLoop_wellFormed _ Hrows st (Some tr) eq_refl)
    as (st1 & Hfirst & Hdom & _).
  assert (Hst' : st' = st1).
  { unfold st'. by rewrite Hrun, Hfirst. }
  assert (Hreach' : reachable growslice st').
  { by apply reachable_fetchDevices. }
  destruct (reachable_viewsAgree growslice st' Hreach') as [Hlist Hmap Hinj Hsize].
  split.
  { intros fetched mac p d Hp Hd st''.
    destruct (fetchDevices_grownFrom st fetched)
      as (added & Hobj & _ & Hmap' & _ & _ & Hts & Harr).
    fold st'' in Hobj, Hmap', Hts, Harr.
    split; [apply Hmap'; by left|].
    split; [rewrite Hobj; by apply lookup_app_l_Some|]. by split. }
  split; [by rewrite Hrun, Hfirst, Hst'|].
  split; [by rewrite Hst'|].
  split; [rewrite Hlist; apply NoDup_seq|].
  split; [by rewrite size_dom|].
  split.
  - intros mac [p Hp]%elem_of_dom. exists p. split; [done|].
    assert (p < length (objects st')) by (apply Hmap; eauto).
    split; [rewrite Hlist, elem_of_seq; lia|]. by apply lookup_lt_is_Some.
  - destruct (devicesLoop_wellFormed _ Hrows st' (Some tr) eq_refl)
      as (st2 & Hsecond & _ & Hnoop).
    rewrite Hrun, Hsecond. f_equal. apply Hnoop.
    rewrite Hst', Hdom. set_solver.
Qed.

Lemma registry_once_witness :
  let doc := devicesPage [macRow laptop; nameRow "laptop";
                          macRow " AA:BB:CC:DD:EE:FF "; nameRow "again"] in
  let st' := stateOf (fetchDevices initial (Parsed doc)) in
  fetchDevices initial (Parsed doc) = Returned st' None /\
  Devices (chartData st') = [0] /\
  fetchDevices st' (Parsed doc) = Returned st' None.
Proof.
  intros doc st'.
  edestruct (registry_pass_registers_each_address_once doubling initial doc)
    as (_ & Hfirst & _ & _ & _ & _ & Hsecond).
  - apply reachable_initial.
  - reflexivity.
  - reflexivity.
  - cbn. eapply wellFormed_pair; [reflexivity|reflexivity|eexists; reflexivity|].
    eapply wellFormed_pair; [reflexivity|reflexivity|eexists; reflexivity|].
    apply wellFormed_nil.
  - split; [exact Hfirst|]. split; [reflexivity|exact Hsecond].
Defined.

(** * How far a transmit series can run ahead of the timestamps *)

(** The address a statistics row is filed under: the text of its first [td]. *)
Definition statisticsAddress (tr : Cursor) : option string :=
  cellText <$> findDescendant (here tr) isTd.

(** The object a statistics row resolves to in the store [st]. *)
Definition rowDevice (st : Memory) (tr : Cursor) : option nat :=
  statisticsAddress tr ≫= fun mac => macAddressToDevice (chartData st) !! mac.

(** The rows the statistics pass visits in a document. *)
Definition statisticsRows (doc : Node) : list Cursor :=
  match findDescendant doc isStatisticsTable with
  | None => []
  | Some table =>
      match findDescendant (here table) isTr with
      | None => []
      | Some tr => chain (findFollowupSibling tr)
      end
  end.

(** The registered addresses among those of the rows, with repetitions. *)
Definition registeredAddresses (st : Memory) (rows : list Cursor) : list string :=
  filter (fun mac => is_Some (macAddressToDevice (chartData st) !! mac))
         (omap statisticsAddress rows).

(** What was fetched lists no registered address in two rows. *)
Definition listsEachDeviceOnce (st : Memory) (fetched : Fetched) : Prop :=
  match fetched with
  | Failed _ => True
  | Parsed doc => NoDup (registeredAddresses st (statisticsRows doc))
  end.

Definition transmitLen (st : Memory) (p : nat) : nat :=
  match objects st !! p with
  | Some d => len (TransmitBytes d)
  | None => 0
  end.

Section Bound.

Variable growslice : nat -> nat -> nat.

(** The stores that passes reach when every statistics document lists each
    registered address in one row at most. *)
Inductive reachableListingOnce : Memory -> Prop :=
  | listingOnce_initial : reachableListingOnce initial
  | listingOnce_fetchDevices st fetched :
      reachableListingOnce st ->
      reachableListingOnce (stateOf (fetchDevices st fetched))
  | listingOnce_fetchLanStatistics st now fetched :
      reachableListingOnce st -> listsEachDeviceOnce st fetched ->
      reachableListingOnce (fst (fetchLanStatistics growslice st now fetched)).

Lemma reachableListingOnce_reachable st :
  reachableListingOnce st -> reachable growslice st.
Proof. induction 1; by constructor. Qed.

Lemma appendTransmit_transmitLen st p x q :
  transmitLen (appendTransmit growslice st p x) q
  <= transmitLen st q + (if decide (p = q) then 1 else 0).
Proof.
  unfold appendTransmit, transmitLen.
  destruct (objects st !! p) as [d|] eqn:Hd; cbn; [|lia].
  destruct (decide (p = q)) as [->|Hne].
  - rewrite Hd, list_lookup_insert_eq by (by eapply lookup_lt_Some).
    cbn. rewrite append_len. lia.
  - rewrite list_lookup_insert_ne by done. lia.
Qed.

Lemma appendReceive_transmitLen st p x q :
  transmitLen (appendReceive growslice st p x) q = transmitLen st q.
Proof.
  unfold appendReceive, transmitLen.
  destruct (objects st !! p) as [d|] eqn:Hd; cbn; [|done].
  destruct (decide (p = q)) as [->|Hne].
  - by rewrite Hd, list_lookup_insert_eq by (by eapply lookup_lt_Some).
  - by rewrite list_lookup_insert_ne by done.
Qed.

(** The loops of the statistics pass leave [chartData] as it is. *)
Lemma rowBody_chartData st tr : chartData (rowBody growslice st tr) = chartData st.
Proof.
  unfold rowBody.
  apply (cellsLoop_invariant growslice (fun st' => chartData st' = chartData st));
    [| |done].
  - intros st' p x <-. unfold appendTransmit. by destruct (objects st' !! p).
  - intros st' p x <-. unfold appendReceive. by destruct (objects st' !! p).
Qed.

Lemma parseAndAppend_other_column appendTo st td deviceData columnIndex column :
  columnIndex <> column ->
  parseAndAppend appendTo st td deviceData columnIndex column = st.
Proof.
  intros H. unfold parseAndAppend. destruct deviceData; [|done].
  by rewrite decide_False.
Qed.

Lemma cellBody_transmitLen st td columnIndex deviceData q :
  transmitLen (fst (cellBody growslice st td columnIndex deviceData)) q
  <= transmitLen st q
     + (if decide (columnIndex = 7 /\ deviceData = Some q) then 1 else 0).
Proof.
  unfold cellBody. cbn [fst].
  destruct (decide (columnIndex = 7)) as [->|H7].
  - rewrite (parseAndAppend_other_column _ _ _ _ 7 8) by lia.
    rewrite decide_False by lia.
    unfold parseAndAppend. destruct deviceData as [p|]; [|lia].
    rewrite decide_True by done.
    destruct (ParseInt _ _) as [bytes [e|]]; [lia|].
    pose proof (appendTransmit_transmitLen st p bytes q).
    repeat case_decide; naive_solver lia.
  - rewrite (parseAndAppend_other_column _ st) by done.
    rewrite (decide_False (P := _ /\ _)) by tauto. rewrite Nat.add_0_r.
    unfold parseAndAppend.
    destruct (if decide (columnIndex = 0) then _ else _) as [p|]; [|done].
    case_decide; [|done]. destruct (ParseInt _ _) as [bytes [e|]]; [done|].
    by rewrite appendReceive_transmitLen.
Qed.

Lemma cellBody_deviceData st td columnIndex deviceData :
  columnIndex <> 0 ->
  snd (cellBody growslice st td columnIndex deviceData) = deviceData.
Proof. intros H. unfold cellBody. by rewrite decide_False. Qed.

Lemma cellsFold_transmitLen tds : forall st columnIndex deviceData q,
  columnIndex <> 0 ->
  transmitLen (cellsFold growslice st tds columnIndex deviceData) q
  <= transmitLen st q
     + (if decide (columnIndex <= 7 /\ deviceData = Some q) then 1 else 0).
Proof.
  induction tds as [|td tds IH]; intros st columnIndex deviceData q Hc;
    cbn [cellsFold]; [lia|].
  rewrite cellBody_deviceData by done.
  pose proof (IH (fst (cellBody growslice st td columnIndex deviceData))
                 (S columnIndex) deviceData q ltac:(lia)) as Hrest.
  pose proof (cellBody_transmitLen st td columnIndex deviceData q) as Hcell.
  repeat case_decide; try lia; naive_solver lia.
Qed.

Lemma rowBody_transmitLen st tr q :
  transmitLen (rowBody growslice st tr) q
  <= transmitLen st q + (if decide (rowDevice st tr = Some q) then 1 else 0).
Proof.
  unfold rowBody, rowDevice, statisticsAddress. rewrite cellsLoop_chain.
  destruct (findDescendant (here tr) isTd) as [td|];
    cbn [fmap option_fmap option_map mbind option_bind]; [|cbn; lia].
  rewrite chain_step. cbn [cellsFold].
  assert (Hfirst : cellBody growslice st td 0 None
                   = (st, macAddressToDevice (chartData st) !! cellText td)).
  { unfold cellBody. by rewrite !parseAndAppend_other_column by lia. }
  rewrite Hfirst. cbn [fst snd].
  pose proof (cellsFold_transmitLen (chain (findFollowupSibling td)) st 1
                (macAddressToDevice (chartData st) !! cellText td) q ltac:(lia)).
  repeat case_decide; try lia; naive_solver lia.
Qed.

Lemma rowDevice_chartData st st' tr :
  chartData st' = chartData st -> rowDevice st' tr = rowDevice st tr.
Proof. unfold rowDevice. by intros ->. Qed.

Lemma rows_transmitLen rows : forall st q,
  transmitLen (foldl (rowBody growslice) st rows) q
  <= transmitLen st q
     + length (filter (fun tr => rowDevice st tr = Some q) rows).
Proof.
  induction rows as [|tr rows IH]; intros st q; cbn [foldl]; [cbn; lia|].
  pose proof (IH (rowBody growslice st tr) q) as Hrest.
  pose proof (rowBody_transmitLen st tr q) as Hrow.
  assert (Hsame : filter (fun tr0 => rowDevice (rowBody growslice st tr) tr0 = Some q) rows
                  = filter (fun tr0 => rowDevice st tr0 = Some q) rows).
  { apply list_filter_iff. intros tr0.
    by rewrite (rowDevice_chartData st) by apply rowBody_chartData. }
  rewrite Hsame in Hrest. rewrite filter_cons.
  destruct (decide (rowDevice st tr = Some q)); cbn [length]; lia.
Qed.

Lemma registeredAddresses_cons st tr rows :
  registeredAddresses st (tr :: rows)
  = match statisticsAddress tr with
    | Some mac =>
        if decide (is_Some (macAddressToDevice (chartData st) !! mac))
        then mac :: registeredAddresses st rows
        else registeredAddresses st rows
    | None => registeredAddresses st rows
    end.
Proof.
  unfold registeredAddresses. cbn [omap list_omap].
  destruct (statisticsAddress tr); [|done]. by rewrite filter_cons.
Qed.

Lemma rowDevice_Some st tr q :
  rowDevice st tr = Some q <->
  exists mac, statisticsAddress tr = Some mac /\
              macAddressToDevice (chartData st) !! mac = Some q.
Proof.
  unfold rowDevice. destruct (statisticsAddress tr) as [mac|]; cbn.
  - split; [eauto|]. by intros (mac' & [= <-] & H).
  - split; [done|]. by intros (mac' & H & _).
Qed.

(** With an injective map, rows with pairwise different registered
    addresses resolve to pairwise different objects. *)
Lemma rows_resolving_once st rows q :
  (forall mac1 mac2 p,
     macAddressToDevice (chartData st) !! mac1 = Some p ->
     macAddressToDevice (chartData st) !! mac2 = Some p -> mac1 = mac2) ->
  NoDup (registeredAddresses st rows) ->
  length (filter (fun tr => rowDevice st tr = Some q) rows) <= 1.
Proof.
  intros Hinj.
  induction rows as [|tr rows IH]; [cbn; lia|].
  rewrite registeredAddresses_cons, filter_cons.
  destruct (decide (rowDevice st tr = Some q)) as [Hq|Hq].
  - apply rowDevice_Some in Hq as (mac & Hmac & Hq). rewrite Hmac.
    rewrite decide_True by (by rewrite Hq). intros [Hnotin Hnd]%NoDup_cons.
    cbn [length]. apply le_n_S, Nat.le_0_r, length_zero_iff_nil.
    apply elem_of_nil_inv. intros tr' [Hq' Hin]%list_elem_of_filter. apply Hnotin.
    apply rowDevice_Some in Hq' as (mac' & Hmac' & Hq').
    rewrite (Hinj mac mac' q Hq Hq'). apply list_elem_of_filter.
    split; [by rewrite Hq'|]. apply list_elem_of_omap. eauto.
  - intros Hnd. apply IH. destruct (statisticsAddress tr) as [mac|]; [|done].
    case_decide; [|done]. by apply NoDup_cons in Hnd as [_ ?].
Qed.

Lemma recordFetch_transmitLen st ms q :
  transmitLen (recordFetch growslice st ms) q = transmitLen st q.
Proof. done. Qed.

Lemma fetchLanStatistics_chartData st now fetched :
  chartData (fst (fetchLanStatistics growslice st now fetched))
  = chartData (recordFetch growslice st (now ÷ 1000000)%Z).
Proof.
  apply (fetchLanStatistics_invariant growslice
           (fun st' => chartData st' = chartData (recordFetch growslice st (now ÷ 1000000)%Z)));
    [| |done].
  - intros st' p x <-. unfold appendTransmit. by destruct (objects st' !! p).
  - intros st' p x <-. unfold appendReceive. by destruct (objects st' !! p).
Qed.

(** One call of the statistics pass: one more timestamp, and for each
    object as many more transmit values, at most, as rows resolve to it. *)
Lemma fetchLanStatistics_transmitLen st now fetched q :
  let st' := fst (fetchLanStatistics growslice st now fetched) in
  len (FetchMilliseconds (chartData st')) = S (len (FetchMilliseconds (chartData st))) /\
  transmitLen st' q
  <= transmitLen st q
     + match fetched with
       | Failed _ => 0
       | Parsed doc =>
           length (filter (fun tr => rowDevice st tr = Some q) (statisticsRows doc))
       end.
Proof.
  intros st'. split.
  { unfold st'. rewrite fetchLanStatistics_chartData. cbn. apply append_len. }
  unfold st', fetchLanStatistics, statisticsRows.
  destruct fetched as [doc|err];
    [|cbn [fst]; rewrite recordFetch_transmitLen; lia].
  destruct (findDescendant doc isStatisticsTable) as [table|];
    [|cbn [fst]; rewrite recordFetch_transmitLen; lia].
  destruct (findDescendant (here table) isTr) as [tr|];
    [|cbn [fst]; rewrite recordFetch_transmitLen; lia].
  cbn [fst]. rewrite rowsLoop_chain.
  pose proof (rows_transmitLen (chain (findFollowupSibling tr))
                (recordFetch growslice st (now ÷ 1000000)%Z) q) as Hrows.
  rewrite recordFetch_transmitLen in Hrows.
  erewrite list_filter_iff in Hrows; [exact Hrows|]. intros tr0. done.
Qed.

Lemma listingOnce_bound st :
  reachableListingOnce st ->
  forall q, transmitLen st q <= len (FetchMilliseconds (chartData st)).
Proof.
  induction 1 as [|st fetched Hreach IH|st now fetched Hreach IH Honce]; intros q.
  - done.
  - revert q.
    apply (fetchDevices_invariant
             (fun st' => forall q, transmitLen st' q
                                   <= len (FetchMilliseconds (chartData st'))));
      [|done].
    intros st' mac name Hst' _ q. specialize (Hst' q).
    unfold transmitLen in *. unfold register. cbn [objects chartData FetchMilliseconds].
    destruct ((objects st' ++ _) !! q) as [d|] eqn:Hd; [|lia].
    apply lookup_snoc_inv in Hd as [Hd|[_ ->]]; [by rewrite Hd in Hst'|cbn; lia].
  - destruct (fetchLanStatistics_transmitLen st now fetched q) as [Hts Htx].
    specialize (IH q). rewrite Hts.
    apply reachableListingOnce_reachable, reachable_viewsAgree in Hreach.
    destruct Hreach as [_ _ Hinj _].
    destruct fetched as [doc|err]; [|lia].
    pose proof (rows_resolving_once st (statisticsRows doc) q Hinj Honce). lia.
Qed.

End Bound.

(** C2, as the code has it. When no statistics document lists a registered
    address in more than one row, the transmit series of no device is longer
    than the timestamp series, in any store that registry and statistics
    passes reach from the empty one. *)
Theorem transmit_series_within_timestamps
    (growslice : nat -> nat -> nat) (st : Memory) (p : nat) (d : DeviceData) :
  reachableListingOnce growslice st ->
  objects st !! p = Some d ->
  len (TransmitBytes d) <= len (FetchMilliseconds (chartData st)).
Proof.
  intros Hreach Hd. pose proof (listingOnce_bound growslice st Hreach p) as H.
  unfold transmitLen in H. by rewrite Hd in H.
Qed.

(** * A row for a registered address *)

Section RegisteredRow.

Variable growslice : nat -> nat -> nat.

(** The guarded parse and append of one column, given the cell there. *)
Definition column (appendTo : Memory -> nat -> Z -> Memory) (st : Memory)
    (p : nat) (td : option Cursor) : Memory :=
  match td with
  | None => st
  | Some td =>
      match ParseInt (cellText td) 32 with
      | (bytes, None) => appendTo st p bytes
      | (_, Some _) => st
      end
  end.

Lemma cellsFold_registered p tds : forall st columnIndex,
  columnIndex <> 0 ->
  cellsFold growslice st tds columnIndex (Some p)
  = let st7 := if decide (columnIndex <= 7)
               then column (appendTransmit growslice) st p (tds !! (7 - columnIndex))
               else st in
    if decide (columnIndex <= 8)
    then column (appendReceive growslice) st7 p (tds !! (8 - columnIndex))
    else st7.
Proof.
  induction tds as [|td tds IH]; intros st c Hc.
  { cbn. by repeat case_decide. }
  cbn [cellsFold]. rewrite cellBody_deviceData by done.
  rewrite IH by lia. unfold cellBody.
  rewrite (decide_False (P := c = 0)) by done. cbn [fst].
  destruct (decide (c = 7)) as [->|H7]; [|destruct (decide (c = 8)) as [->|H8]].
  - rewrite (parseAndAppend_other_column _ _ _ _ 7 8) by lia.
    rewrite (decide_False (P := 8 <= 7)) by lia.
    rewrite !decide_True by lia. cbn.
    unfold parseAndAppend. by rewrite decide_True.
  - rewrite (parseAndAppend_other_column _ _ _ _ 8 7) by lia.
    rewrite !(decide_False (P := _ <= 7)) by lia.
    rewrite (decide_False (P := 9 <= 8)) by lia. rewrite decide_True by lia. cbn.
    unfold parseAndAppend. by rewrite decide_True.
  - rewrite !parseAndAppend_other_column by done.
    destruct (decide (c <= 7)) as [Hle|Hgt].
    + rewrite !decide_True by lia.
      replace (7 - c) with (S (7 - S c)) by lia.
      replace (8 - c) with (S (8 - S c)) by lia. done.
    + rewrite !decide_False by lia. done.
Qed.

(** A row whose first cell holds a registered address: what is done for
    column 7, then what is done for column 8, and nothing else. *)
Lemma rowBody_registered st tr td0 p :
  findDescendant (here tr) isTd = Some td0 ->
  macAddressToDevice (chartData st) !! cellText td0 = Some p ->
  rowBody growslice st tr
  = column (appendReceive growslice)
      (column (appendTransmit growslice) st p (chain (Some td0) !! 7))
      p (chain (Some td0) !! 8).
Proof.
  intros Htd Hp. unfold rowBody. rewrite cellsLoop_chain, Htd, chain_step.
  cbn [cellsFold]. unfold cellBody at 1 2.
  rewrite !parseAndAppend_other_column by lia. rewrite decide_True by done.
  cbn [fst snd]. rewrite Hp, cellsFold_registered by lia.
  by rewrite !decide_True by lia.
Qed.

Lemma appendTransmit_elems st p x d :
  wfMemory st -> objects st !! p = Some d ->
  exists d',
    objects (appendTransmit growslice st p x) !! p = Some d' /\
    elems (arrays (appendTransmit growslice st p x)) (TransmitBytes d')
    = elems (arrays st) (TransmitBytes d) ++ [x] /\
    ReceiveBytes d' = ReceiveBytes d.
Proof.
  intros [H0 Hts Htx Hrx Hap] Hd. unfold appendTransmit. rewrite Hd. cbn.
  eexists. split; [apply list_lookup_insert_eq; by eapply lookup_lt_Some|].
  cbn. split; [|done]. apply append_elems. by eapply Htx.
Qed.

(** Line 185 builds the receive series from the transmit series. *)
Lemma appendReceive_elems st p x d :
  wfMemory st -> objects st !! p = Some d ->
  exists d',
    objects (appendReceive growslice st p x) !! p = Some d' /\
    elems (arrays (appendReceive growslice st p x)) (TransmitBytes d')
    = elems (arrays st) (TransmitBytes d) /\
    elems (arrays (appendReceive growslice st p x)) (ReceiveBytes d')
    = elems (arrays st) (TransmitBytes d) ++ [x].
Proof.
  intros [H0 Hts Htx Hrx Hap] Hd. unfold appendReceive. rewrite Hd. cbn.
  eexists. split; [apply list_lookup_insert_eq; by eapply lookup_lt_Some|].
  cbn. split; [|apply append_elems; by eapply Htx].
  apply append_elems_other; [by eapply Htx|by right].
Qed.

(** What the code does for a row with a registered address and parseable
    cells in columns 7 and 8: the transmit series gets the value of column 7,
    and the receive series becomes the new transmit series followed by the
    value of column 8. *)
Lemma registered_row_series st tr td0 td7 td8 p d v7 v8 :
  wfMemory st ->
  findDescendant (here tr) isTd = Some td0 ->
  macAddressToDevice (chartData st) !! cellText td0 = Some p ->
  objects st !! p = Some d ->
  chain (Some td0) !! 7 = Some td7 -> ParseInt (cellText td7) 32 = (v7, None) ->
  chain (Some td0) !! 8 = Some td8 -> ParseInt (cellText td8) 32 = (v8, None) ->
  exists d',
    objects (rowBody growslice st tr) !! p = Some d' /\
    elems (arrays (rowBody growslice st tr)) (TransmitBytes d')
    = elems (arrays st) (TransmitBytes d) ++ [v7] /\
    elems (arrays (rowBody growslice st tr)) (ReceiveBytes d')
    = elems (arrays st) (TransmitBytes d) ++ [v7; v8].
Proof.
  intros Hwf Htd Hp Hd H7 Hv7 H8 Hv8.
  rewrite (rowBody_registered st tr td0 p Htd Hp), H7, H8.
  unfold column. rewrite Hv7, Hv8.
  destruct (appendTransmit_elems st p v7 d Hwf Hd) as (d1 & Hd1 & Htx1 & _).
  destruct (appendReceive_elems (appendTransmit growslice st p v7) p v8 d1
              (appendTransmit_wf growslice st p v7 Hwf) Hd1)
    as (d2 & Hd2 & Htx2 & Hrx2).
  exists d2. split; [done|]. rewrite Htx2, Hrx2, Htx1.
  split; [done|]. by rewrite <- app_assoc.
Qed.

End RegisteredRow.

(** * The scenarios of the specification *)

Lemma appendTransmit_len growslice st p x d :
  objects st !! p = Some d ->
  exists d',
    objects (appendTransmit growslice st p x) !! p = Some d' /\
    len (TransmitBytes d') = S (len (TransmitBytes d)) /\
    len (ReceiveBytes d') = len (ReceiveBytes d).
Proof.
  intros Hd. unfold appendTransmit. rewrite Hd. cbn.
  eexists. split; [apply list_lookup_insert_eq; by eapply lookup_lt_Some|].
  cbn. by rewrite append_len.
Qed.

(** The moment of the calls in the scenarios, as [UnixNano]. *)
Definition noon : Z := 1700000000123456789.

(** C1 fails on the code. In the scenario of the specification, one
    registered device and one row with ["1024"] in column 7 and ["2048"] in
    column 8, the transmit series becomes [[1024]] and the receive series
    becomes [[1024; 2048]], not [[2048]]: line 185 appends the value of
    column 8 to the transmit series and stores the result as the receive
    series. This holds whatever capacities the runtime picks. *)
Theorem scenario_receive_series_copies_transmit (growslice : nat -> nat -> nat) :
  let st := fst (fetchLanStatistics growslice registered noon
                   (Parsed (statisticsPage [statisticsRow laptop ["1024"; "2048"]]))) in
  exists d,
    objects st !! 0 = Some d /\
    elems (arrays st) (TransmitBytes d) = [1024%Z] /\
    elems (arrays st) (ReceiveBytes d) = [1024%Z; 2048%Z].
Proof.
  intros st. unfold st, fetchLanStatistics.
  set (st1 := recordFetch growslice registered (noon ÷ 1000000)%Z).
  destruct (findDescendant _ isStatisticsTable) as [table|] eqn:Htable;
    vm_compute in Htable; [injection Htable as <-|done].
  destruct (findDescendant _ isTr) as [tr|] eqn:Htr;
    vm_compute in Htr; [injection Htr as <-|done].
  cbn [fst]. rewrite rowsLoop_chain.
  match goal with |- context [chain ?c] =>
    let rows := eval vm_compute in (chain c) in change (chain c) with rows end.
  cbn [foldl].
  assert (Hwf : wfMemory st1).
  { apply recordFetch_wf, (reachable_wf growslice), reachable_registered. }
  match goal with |- context [rowBody _ _ ?tr] =>
    edestruct (registered_row_series growslice st1 tr) as (d & Hd & Htx & Hrx)
  end; [exact Hwf|reflexivity|reflexivity|reflexivity
       |reflexivity|reflexivity|reflexivity|reflexivity|].
  exists d. split; [exact Hd|]. split; [exact Htx|exact Hrx].
Qed.

(** The store after one statistics pass over a document that lists the
    registered address in two rows, each with a value in column 7 and no
    column 8. *)
Definition listedTwice (growslice : nat -> nat -> nat) : Memory :=
  fst (fetchLanStatistics growslice registered noon
         (Parsed (statisticsPage [statisticsRow laptop ["1024"];
                                  statisticsRow laptop ["4096"]]))).

Lemma rowBody_transmit_only growslice st tr td0 td7 p v7 :
  findDescendant (here tr) isTd = Some td0 ->
  macAddressToDevice (chartData st) !! cellText td0 = Some p ->
  chain (Some td0) !! 7 = Some td7 -> ParseInt (cellText td7) 32 = (v7, None) ->
  chain (Some td0) !! 8 = None ->
  rowBody growslice st tr = appendTransmit growslice st p v7.
Proof.
  intros Htd Hp H7 Hv7 H8.
  rewrite (rowBody_registered growslice st tr td0 p Htd Hp), H7, H8.
  unfold column. by rewrite Hv7.
Qed.

Lemma listedTwice_eval growslice :
  listedTwice growslice
  = appendTransmit growslice
      (appendTransmit growslice
         (recordFetch growslice registered (noon ÷ 1000000)%Z) 0 1024) 0 4096.
Proof.
  unfold listedTwice, fetchLanStatistics.
  set (st1 := recordFetch growslice registered (noon ÷ 1000000)%Z).
  destruct (findDescendant _ isStatisticsTable) as [table|] eqn:Htable;
    vm_compute in Htable; [injection Htable as <-|done].
  destruct (findDescendant _ isTr) as [tr|] eqn:Htr;
    vm_compute in Htr; [injection Htr as <-|done].
  cbn [fst]. rewrite rowsLoop_chain.
  match goal with |- context [chain ?c] =>
    let rows := eval vm_compute in (chain c) in change (chain c) with rows end.
  cbn [foldl].
  match goal with |- rowBody _ (rowBody _ _ ?tr1) ?tr2 = _ =>
    set (row1 := tr1); set (row2 := tr2) end.
  assert (H1 : rowBody growslice st1 row1 = appendTransmit growslice st1 0 1024).
  { eapply rowBody_transmit_only; reflexivity. }
  rewrite H1. eapply rowBody_transmit_only; reflexivity.
Qed.

Lemma listedTwice_lengths growslice :
  exists d,
    objects (listedTwice growslice) !! 0 = Some d /\
    len (TransmitBytes d) = 2 /\ len (ReceiveBytes d) = 0 /\
    len (FetchMilliseconds (chartData (listedTwice growslice))) = 1.
Proof.
  assert (Hts : len (FetchMilliseconds (chartData (listedTwice growslice))) = 1).
  { unfold listedTwice. by rewrite fetchLanStatistics_chartData. }
  rewrite listedTwice_eval in *.
  set (st1 := recordFetch growslice registered (noon ÷ 1000000)%Z) in *.
  destruct (appendTransmit_len growslice st1 0 1024
              (mkDeviceData "laptop" emptySlice emptySlice) eq_refl)
    as (d1 & Hd1 & Htx1 & Hrx1).
  destruct (appendTransmit_len growslice _ 0 4096 d1 Hd1) as (d2 & Hd2 & Htx2 & Hrx2).
  exists d2. split; [done|]. rewrite Htx2, Htx1, Hrx2, Hrx1. by repeat split.
Qed.

(** C2 as stated fails, whatever capacities the runtime picks: after one
    statistics pass over a document with two rows for the one registered
    device, its transmit series has two elements and the timestamp series
    has one. *)
Lemma transmit_series_leads_timestamps :
  ~ (exists growslice : nat -> nat -> nat,
       forall (st : Memory) (p : nat) (d : DeviceData),
         reachable growslice st ->
         objects st !! p = Some d ->
         Nat.max (len (TransmitBytes d)) (len (ReceiveBytes d))
         <= len (FetchMilliseconds (chartData st))).
Proof.
  intros [growslice H].
  destruct (listedTwice_lengths growslice) as (d & Hd & Htx & Hrx & Hts).
  assert (Hreach : reachable growslice (listedTwice growslice)).
  { apply reachable_fetchLanStatistics, reachable_fetchDevices, reachable_initial. }
  specialize (H _ 0 d Hreach Hd). rewrite Htx, Hrx, Hts in H. cbn in H. lia.
Qed.

Lemma transmit_series_within_timestamps_witness :
  let st := fst (fetchLanStatistics doubling registered noon
                   (Parsed (statisticsPage [statisticsRow laptop ["1024"; "2048"]]))) in
  len (TransmitBytes (mkDeviceData "laptop" (mkSlice 2 1 1) (mkSlice 3 2 2)))
  <= len (FetchMilliseconds (chartData st)).
Proof.
  intros st.
  apply (transmit_series_within_timestamps doubling st 0).
  - apply listingOnce_fetchLanStatistics.
    + apply listingOnce_fetchDevices, listingOnce_initial.
    + unfold listsEachDeviceOnce.
      replace (registeredAddresses _ _) with [laptop] by (vm_compute; reflexivity).
      apply NoDup_singleton.
  - vm_compute. reflexivity.
Defined.

(** * The reader *)

(** What a reader can tell of one device: its name and the elements of its
    two series; nil for a pointer to no object. *)
Definition deviceContents (st : Memory) (p : nat)
  : option (string * list Z * list Z) :=
  (fun d => (DeviceName d, elems (arrays st) (TransmitBytes d),
             elems (arrays st) (ReceiveBytes d))) <$> objects st !! p.

(** The contents of the store: the devices in list order and the
    timestamps, without addresses, capacities or the map. *)
Definition contents (st : Memory)
  : list (option (string * list Z * list Z)) * list Z :=
  (map (deviceContents st) (Devices (chartData st)),
   elems (arrays st) (FetchMilliseconds (chartData st))).

Section Reader.

Variable encodeString : string -> string.

Definition renderInt64s (l : list Z) : string :=
  "[" +:+ String.concat "," (map pretty l) +:+ "]".

Definition renderDevice (c : option (string * list Z * list Z)) : string :=
  match c with
  | None => "null"
  | Some (name, transmit, receive) =>
      "{" +:+ jsonKey "DeviceName" +:+ encodeString name
      +:+ "," +:+ jsonKey "TransmitBytes" +:+ renderInt64s transmit
      +:+ "," +:+ jsonKey "ReceiveBytes" +:+ renderInt64s receive
      +:+ "}"
  end.

Lemma marshalDevice_contents st p :
  marshalDevice encodeString st p = renderDevice (deviceContents st p).
Proof.
  unfold marshalDevice, deviceContents. by destruct (objects st !! p).
Qed.

Lemma Marshal_contents st :
  Marshal encodeString st
  = "{" +:+ jsonKey "Devices"
    +:+ "[" +:+ String.concat "," (map renderDevice (fst (contents st))) +:+ "]"
    +:+ "," +:+ jsonKey "FetchMilliseconds"
    +:+ renderInt64s (snd (contents st))
    +:+ "}".
Proof.
  unfold Marshal, contents. cbn [fst snd]. rewrite map_map.
  by rewrite (map_ext _ _ (marshalDevice_contents st)).
Qed.

End Reader.

(** C9. [dataHandler] leaves the store as it is, so two calls in a row,
    with no pass in between, write the same bytes; and the bytes depend on
    the contents of the store only: two stores with the same devices in the
    same order, the same series elements and the same timestamps are written
    alike, whatever their addresses, capacities and maps. *)
Theorem consecutive_snapshots_are_identical
    (encodeString : string -> string) (st : Memory) :
  fst (dataHandler encodeString st) = st /\
  snd (dataHandler encodeString (fst (dataHandler encodeString st)))
  = snd (dataHandler encodeString st) /\
  forall st', contents st' = contents st ->
    snd (dataHandler encodeString st') = snd (dataHandler encodeString st).
Proof.
  split; [done|]. split; [done|].
  intros st' Hsame. unfold dataHandler. cbn [snd]. f_equal.
  by rewrite !Marshal_contents, Hsame.
Qed.

(** * The two series of a device over one array *)

(** The receive series shares the array of the transmit series after line
    185 whenever that array has room. Under a doubling runtime: three passes
    with both columns, then a pass with column 7 only. The last pass appends
    nothing to the receive series, and yet its last element, 30 after the
    third pass, reads 4 afterwards. *)
Definition fourPasses : Memory * Memory :=
  let pass st counters :=
    fst (fetchLanStatistics doubling st noon
           (Parsed (statisticsPage [statisticsRow laptop counters]))) in
  let third := pass (pass (pass registered ["1"; "10"]) ["2"; "20"]) ["3"; "30"] in
  (third, pass third ["4"]).

Example receive_series_overwritten_by_transmit_append :
  deviceContents (fst fourPasses) 0
  = Some ("laptop", [1; 2; 3]%Z, [1; 2; 3; 30]%Z) /\
  deviceContents (snd fourPasses) 0
  = Some ("laptop", [1; 2; 3; 4]%Z, [1; 2; 3; 4]%Z).
Proof. split; vm_compute; reflexivity. Qed.

(** * Further properties of the search primitives and the extractors *)

Lemma followupFrom_first a l :
  match followupFrom a l with
  | Some s =>
      exists skipped,
        l = skipped ++ here s :: later s /\ DataAtom (here s) = a /\
        Forall (fun n => DataAtom n <> a) skipped
  | None => Forall (fun n => DataAtom n <> a) l
  end.
Proof.
  induction l as [|n l IH]; cbn; [constructor|].
  destruct (decide (a = DataAtom n)) as [->|Hne].
  - exists []. by repeat split.
  - destruct (followupFrom a l) as [s|].
    + destruct IH as (skipped & -> & Ha & Hskip). exists (n :: skipped).
      split; [done|]. split; [done|]. constructor; [congruence|done].
    + constructor; [congruence|done].
Qed.

(** X1. [findFollowupSibling] returns the first later sibling whose atom is the
    node's own: the siblings it passes over all have another atom, and when
    it returns nil no later sibling has the node's atom. *)
Theorem findFollowupSibling_first_with_same_atom (node : Cursor) :
  match findFollowupSibling node with
  | Some s =>
      exists skipped,
        later node = skipped ++ here s :: later s /\
        DataAtom (here s) = DataAtom (here node) /\
        Forall (fun n => DataAtom n <> DataAtom (here node)) skipped
  | None => Forall (fun n => DataAtom n <> DataAtom (here node)) (later node)
  end.
Proof. apply followupFrom_first. Qed.

(** X2. [getAttribute] returns the value of the first attribute with the key,
    whatever later attributes with the same key hold, and the empty string
    when no attribute has the key; a caller cannot tell [key=""] from no
    attribute at all. *)
Theorem getAttribute_first_value_or_empty (node : Node) (key : string) :
  (exists before attr after,
     Attr node = before ++ attr :: after /\
     Forall (fun a => Key a <> key) before /\ Key attr = key /\
     getAttribute node key = Val attr) \/
  (Forall (fun a => Key a <> key) (Attr node) /\ getAttribute node key = "").
Proof.
  unfold getAttribute. induction (Attr node) as [|a l IH]; cbn.
  { right. by split. }
  destruct (decide (Key a = key)) as [Hk|Hk].
  - left. exists [], a, l. by repeat split.
  - destruct IH as [(before & attr & after & -> & Hb & Ha & Hv)|[Hnone Hv]].
    + left. exists (a :: before), attr, after. repeat split; try done. by constructor.
    + right. split; [by constructor|done].
Qed.

(** The payloads of the text nodes at or below a node, in document order.
    A text node stands for itself: nothing below it is read. *)
Fixpoint textPayloads (node : Node) : list string :=
  if decide (Type_ node = TextNode) then [Data node]
  else (fix each (children : list Node) : list string :=
          match children with
          | [] => []
          | child :: rest => textPayloads child ++ each rest
          end) (Children node).

Fixpoint joined (l : list string) : string :=
  match l with
  | [] => ""
  | s :: rest => s +:+ joined rest
  end.

Lemma append_empty_r (s : string) : s +:+ "" = s.
Proof.
  induction s as [|c s IH]; [done|].
  change (String c (s +:+ "") = String c s). by rewrite IH.
Qed.

Lemma String_append_assoc (a b c : string) : (a +:+ b) +:+ c = a +:+ (b +:+ c).
Proof.
  induction a as [|x a IH]; [done|].
  change (String x ((a +:+ b) +:+ c) = String x (a +:+ (b +:+ c))). by rewrite IH.
Qed.

Lemma joined_app l1 l2 : joined (l1 ++ l2) = joined l1 +:+ joined l2.
Proof.
  induction l1 as [|s l1 IH]; [done|]. cbn [app joined].
  by rewrite IH, String_append_assoc.
Qed.

Definition innerTextLoop : string -> list Node -> string :=
  fix loop (res : string) (children : list Node) : string :=
    match children with
    | [] => res
    | child :: rest => loop (res +:+ getInnerText child) rest
    end.

Definition eachPayloads : list Node -> list string :=
  fix each (children : list Node) : list string :=
    match children with
    | [] => []
    | child :: rest => textPayloads child ++ each rest
    end.

Lemma getInnerText_unfold node :
  getInnerText node
  = if decide (Type_ node = TextNode) then Data node
    else innerTextLoop "" (Children node).
Proof. by destruct node. Qed.

Lemma textPayloads_unfold node :
  textPayloads node
  = if decide (Type_ node = TextNode) then [Data node]
    else eachPayloads (Children node).
Proof. by destruct node. Qed.

Lemma innerTextLoop_joined cs :
  Forall (fun c => getInnerText c = joined (textPayloads c)) cs ->
  forall res, innerTextLoop res cs = res +:+ joined (eachPayloads cs).
Proof.
  induction 1 as [|c cs Hc _ IH]; intros res; cbn.
  - by rewrite append_empty_r.
  - by rewrite IH, Hc, joined_app, String_append_assoc.
Qed.

(** X3. [getInnerText] is the text payloads at or below the node, joined in
    document order with nothing in between: elements, comments and the
    document node add nothing of their own, and what hangs below a text
    node is not read. *)
Theorem getInnerText_joins_text_payloads (node : Node) :
  getInnerText node = joined (textPayloads node).
Proof.
  induction node as [ty a d at_ cs IH] using Node_ind'.
  rewrite getInnerText_unfold, textPayloads_unfold. cbn [Type_ Data Children].
  case_decide; [by cbn; rewrite append_empty_r|].
  by rewrite (innerTextLoop_joined cs IH).
Qed.

(** * Further properties of the statistics pass *)

Lemma chainFrom_here a l :
  map here (chainFrom a l) = filter (fun n => a = DataAtom n) l.
Proof.
  induction l as [|n l IH]; [done|]. cbn [chainFrom]. rewrite filter_cons.
  destruct (decide (a = DataAtom n)); cbn; by rewrite IH.
Qed.

Lemma chainFrom_later a l c :
  c ∈ chainFrom a l -> exists skipped, l = skipped ++ here c :: later c.
Proof.
  induction l as [|n l IH]; cbn [chainFrom]; [by rewrite elem_of_nil|].
  destruct (decide (a = DataAtom n)).
  - rewrite elem_of_cons. intros [->|Hin]; [by exists []|].
    destruct (IH Hin) as [skipped ->]. by exists (n :: skipped).
  - intros Hin. destruct (IH Hin) as [skipped ->]. by exists (n :: skipped).
Qed.

Section MoreStatistics.

Variable growslice : nat -> nat -> nat.

(** X4. On a document with the statistics table and a first [tr] in it, the
    pass is the timestamp append followed by the row body on each later
    sibling of that [tr] that is a [tr] itself, in document order; siblings
    with another atom (text between the rows, say) are passed over, and
    the first [tr], the header, is not processed. *)
Theorem statistics_pass_folds_rows_in_document_order
    (st : Memory) (now : Z) (doc : Node) (table tr : Cursor) :
  findDescendant doc isStatisticsTable = Some table ->
  findDescendant (here table) isTr = Some tr ->
  fetchLanStatistics growslice st now (Parsed doc)
  = (foldl (rowBody growslice) (recordFetch growslice st (now ÷ 1000000)%Z)
           (statisticsRows doc), None) /\
  map here (statisticsRows doc) = filter (fun n => DataAtom n = Tr) (later tr).
Proof.
  intros Htable Htr. unfold fetchLanStatistics, statisticsRows.
  rewrite Htable, Htr, rowsLoop_chain. split; [done|].
  unfold findFollowupSibling. rewrite chain_followupFrom, chainFrom_here.
  assert (Hatom : DataAtom (here tr) = Tr).
  { destruct (findDescendant_search_spec isTr (here table)) as [_ Hspec].
    destruct (snd (findDescendant_visits (here table) isTr)) as [q|].
    - destruct Hspec as ((c & Hc & _ & Hcond) & _). rewrite Htr in Hc.
      injection Hc as <-. by apply bool_decide_eq_true in Hcond.
    - destruct Hspec as (Hnone & _). congruence. }
  rewrite Hatom. apply list_filter_iff. intros n. split; congruence.
Qed.

(** X5. Which cells are stored. In a column other than 0, for a row resolved to
    the object [p]: the cell is appended exactly when its trimmed text is a
    decimal numeral (an optional sign, then digits only) within the signed
    32-bit range, and then with the numeral's value; column 7 goes to
    [appendTransmit], column 8 to [appendReceive], and any other column, or
    any other text, leaves the store as it is. *)
Theorem cell_is_stored_iff_int32_numeral
    (st : Memory) (td : Cursor) (columnIndex p : nat) :
  columnIndex <> 0 ->
  fst (cellBody growslice st td columnIndex (Some p))
  = match decimalValue (cellText td) with
    | Some v =>
        if decide (inInt32 v) then
          if decide (columnIndex = 7) then appendTransmit growslice st p v
          else if decide (columnIndex = 8) then appendReceive growslice st p v
          else st
        else st
    | None => st
    end.
Proof.
  intros Hc. unfold cellBody. rewrite (decide_False (P := columnIndex = 0)) by done.
  cbn [fst]. pose proof (ParseInt32_spec (cellText td)) as Hparse.
  unfold parseAndAppend.
  destruct (decide (columnIndex = 7)) as [->|H7].
  - rewrite (decide_False (P := 7 = 8)) by lia.
    destruct (decimalValue (cellText td)) as [v|].
    + destruct (decide (inInt32 v)); [by rewrite Hparse|].
      by destruct (ParseInt (cellText td) 32) as [bytes [e|]].
    + by destruct (ParseInt (cellText td) 32) as [bytes [e|]].
  - destruct (decide (columnIndex = 8)) as [->|H8].
    + destruct (decimalValue (cellText td)) as [v|].
      * destruct (decide (inInt32 v)); [by rewrite Hparse|].
        by destruct (ParseInt (cellText td) 32) as [bytes [e|]].
      * by destruct (ParseInt (cellText td) 32) as [bytes [e|]].
    + destruct (decimalValue (cellText td)) as [v|]; [|done]. by case_decide.
Qed.

End MoreStatistics.

Lemma statistics_pass_folds_rows_witness :
  let doc := statisticsPage [statisticsRow laptop ["1024"; "2048"];
                             text " "; statisticsRow "11:22:33:44:55:66" ["7"]] in
  length (statisticsRows doc) = 2.
Proof.
  intros doc.
  edestruct (statistics_pass_folds_rows_in_document_order doubling registered noon doc)
    as [_ Hrows]; [reflexivity|reflexivity|].
  rewrite <- (length_map here), Hrows. reflexivity.
Defined.

Lemma cell_is_stored_witness :
  fst (cellBody doubling registered (mkCursor (cell " +0042 ") []) 7 (Some 0))
  = appendTransmit doubling registered 0 42.
Proof.
  rewrite (cell_is_stored_iff_int32_numeral doubling registered
             (mkCursor (cell " +0042 ") []) 7 0); [reflexivity|lia].
Defined.

(** * Further properties of the registry pass *)

(** The name the pass gives a device: the trimmed text of the cell, with
    the newlines inside it taken out (line 139). *)
Definition cleanName (td : Cursor) : string := RemoveByte (cellText td) newline.

(** Registering an address unless the map has it (lines 125-127, 138-143). *)
Definition upsertDevice (st : Memory) (entry : string * string) : Memory :=
  match macAddressToDevice (chartData st) !! fst entry with
  | Some _ => st
  | None => register st (fst entry) (snd entry)
  end.

(** The (address, name) pairs a listing announces, in document order: each
    row that announces an address, with the first cell of the row after it. *)
Fixpoint announcements (rows : list Cursor) : list (string * string) :=
  match rows with
  | [] => []
  | tr :: rest =>
      match rowAddress tr with
      | None => announcements rest
      | Some mac =>
          match rest with
          | [] => []
          | tr' :: rest' =>
              match findDescendant (here tr') isTd with
              | Some td' => (mac, cleanName td') :: announcements rest'
              | None => announcements rest'
              end
          end
      end
  end.

Lemma chain_inj c c' : chain c = chain c' -> c = c'.
Proof.
  destruct c as [c|], c' as [c'|]; try done.
  rewrite !chain_step. by intros [= ->].
Qed.

Lemma chain_middle l1 : forall c x l2,
  chain c = l1 ++ x :: l2 -> chain (Some x) = x :: l2.
Proof.
  induction l1 as [|y l1 IH]; intros c x l2 H.
  - apply chain_cons_inv in H as [-> H]. by rewrite chain_step, H.
  - apply chain_cons_inv in H as [-> H]. by eapply IH.
Qed.

(** The row loop over a well-formed stretch of rows registers what the
    stretch announces and goes on with the row after it. *)
Lemma devicesLoop_wellFormed_prefix rows :
  wellFormedRows rows ->
  forall st tr next, chain tr = rows ++ chain next ->
  devicesLoop st tr = devicesLoop (foldl upsertDevice st (announcements rows)) next.
Proof.
  induction 1 as [|tr0 rows Hnone _ IH|tr0 tr1 rows mac Hmac Hnone [td' Htd'] _ IH];
    intros st tr next Hchain.
  - cbn in *. by rewrite (chain_inj _ _ Hchain).
  - cbn [app] in Hchain. apply chain_cons_inv in Hchain as [-> Hchain].
    rewrite devicesLoop_turn, devicesBody_other by done.
    cbn [announcements]. rewrite Hnone. by apply IH.
  - cbn [app] in Hchain. apply chain_cons_inv in Hchain as [-> Hchain].
    apply chain_cons_inv in Hchain as [Hnext Hchain].
    cbn [announcements]. rewrite Hmac, Htd'. cbn [foldl]. unfold upsertDevice at 2.
    cbn [fst snd]. rewrite devicesLoop_turn.
    destruct (macAddressToDevice (chartData st) !! mac) as [p|] eqn:Hp.
    + rewrite (devicesBody_registered st tr0 mac p) by done.
      rewrite Hnext, devicesLoop_turn, devicesBody_other by done. by apply IH.
    + rewrite (devicesBody_new st tr0 tr1 td' mac) by done. by apply IH.
Qed.

Lemma announcements_addresses rows mac :
  mac ∈ map fst (announcements rows) -> mac ∈ addresses rows.
Proof.
  unfold addresses. remember (length rows) as n eqn:Hn. revert rows Hn mac.
  induction n as [n IH] using lt_wf_ind. intros rows Hn mac.
  destruct rows as [|tr rest]; [done|]. cbn [announcements omap list_omap].
  destruct (rowAddress tr) as [a|] eqn:Ha.
  - destruct rest as [|tr' rest']; [by rewrite elem_of_nil|].
    assert (Hrest : forall m, m ∈ map fst (announcements rest') ->
                              m ∈ a :: omap rowAddress (tr' :: rest')).
    { intros m Hm. apply elem_of_cons. right. cbn [omap list_omap].
      assert (m ∈ omap rowAddress rest').
      { eapply (IH (length rest')); [cbn in Hn; lia|done|done]. }
      destruct (rowAddress tr'); [by apply elem_of_cons; right|done]. }
    destruct (findDescendant (here tr') isTd); [|by apply Hrest].
    cbn [map fst]. rewrite (elem_of_cons (map fst _)).
    intros [->|Hm]; [by apply elem_of_cons; left|by apply Hrest].
  - intros Hm. eapply (IH (length rest)); [cbn in Hn; lia|done|done].
Qed.

Lemma foldl_upsertDevice_dom entries : forall st,
  dom (macAddressToDevice (chartData (foldl upsertDevice st entries)))
  = dom (macAddressToDevice (chartData st)) ∪ list_to_set (map fst entries).
Proof.
  induction entries as [|[mac name] entries IH]; intros st; cbn [foldl map list_to_set].
  { set_solver. }
  rewrite IH. unfold upsertDevice. cbn [fst snd].
  destruct (macAddressToDevice (chartData st) !! mac) as [p|] eqn:Hp.
  - apply (elem_of_dom_2 (D := gset string)) in Hp. set_solver.
  - unfold register. cbn. rewrite dom_insert_L. set_solver.
Qed.


(** X7. A listing that breaks off after a row announcing an address that is
    neither registered nor announced before: the pass registers what the
    well-formed rows before that row announce, and then panics at the post
    statement of the loop (line 130 continues with [tr] nil). *)
Theorem registry_pass_panics_when_last_row_announces
    (st : Memory) (doc : Node) (table tr last : Cursor)
    (rows : list Cursor) (mac : string) :
  findDescendant doc isDevicesTable = Some table ->
  findDescendant (here table) isTr = Some tr ->
  chain (Some tr) = rows ++ [last] ->
  wellFormedRows rows ->
  rowAddress last = Some mac ->
  macAddressToDevice (chartData st) !! mac = None ->
  mac ∉ addresses rows ->
  fetchDevices st (Parsed doc)
  = Panicked (foldl upsertDevice st (announcements rows)).
Proof.
  intros Htable Htr Hchain Hrows Hmac Hnew Hnotin.
  unfold fetchDevices. rewrite Htable, Htr.
  pose proof (chain_middle _ _ _ _ Hchain) as Hlast.
  rewrite (devicesLoop_wellFormed_prefix _ Hrows st (Some tr) (Some last))
    by (by rewrite Hlast).
  apply (devicesLoop_panics_without_name_row _ last mac); [done| |].
  - apply (not_elem_of_dom (D := gset string)). rewrite foldl_upsertDevice_dom.
    apply (not_elem_of_dom (D := gset string)) in Hnew.
    intros [Hin|Hin]%elem_of_union; [done|]. apply Hnotin.
    apply announcements_addresses. by apply elem_of_list_to_set in Hin.
  - rewrite chain_step in Hlast. injection Hlast as Hlast.
    by destruct (findFollowupSibling last).
Qed.


Lemma registry_pass_panics_witness :
  let doc := devicesPage [macRow laptop; nameRow "laptop";
                          macRow "11:22:33:44:55:66"] in
  fetchDevices initial (Parsed doc) = Panicked (register initial laptop "laptop").
Proof.
  intros doc.
  etransitivity.
  - eapply (registry_pass_panics_when_last_row_announces initial doc _ _ _
              [_; _] "11:22:33:44:55:66");
      [reflexivity|reflexivity|reflexivity| |reflexivity|reflexivity|].
    + eapply wellFormed_pair; [reflexivity|reflexivity|eexists; reflexivity|].
      apply wellFormed_nil.
    + vm_compute. intros H. apply list_elem_of_singleton in H. discriminate.
  - vm_compute. reflexivity.
Defined.

(** * Further properties of a statistics row *)

(** X8. What lines 178-187 do for a row whose first cell holds a registered
    address and whose cells in columns 7 and 8 parse: the transmit series
    gets the value of column 7 at its end, and the receive series is
    replaced by the new transmit series followed by the value of column 8;
    what the receive series held before is dropped. *)
Theorem registered_row_receive_is_transmit_and_column_8
    (growslice : nat -> nat -> nat) (st : Memory) (tr td0 td7 td8 : Cursor)
    (p : nat) (d : DeviceData) (v7 v8 : Z) :
  wfMemory st ->
  findDescendant (here tr) isTd = Some td0 ->
  macAddressToDevice (chartData st) !! cellText td0 = Some p ->
  objects st !! p = Some d ->
  chain (Some td0) !! 7 = Some td7 -> ParseInt (cellText td7) 32 = (v7, None) ->
  chain (Some td0) !! 8 = Some td8 -> ParseInt (cellText td8) 32 = (v8, None) ->
  exists d',
    objects (rowBody growslice st tr) !! p = Some d' /\
    DeviceName d' = DeviceName d /\
    elems (arrays (rowBody growslice st tr)) (TransmitBytes d')
    = elems (arrays st) (TransmitBytes d) ++ [v7] /\
    elems (arrays (rowBody growslice st tr)) (ReceiveBytes d')
    = elems (arrays st) (TransmitBytes d) ++ [v7; v8].
Proof.
  intros Hwf Htd Hp Hd H7 Hv7 H8 Hv8.
  destruct (registered_row_series growslice st tr td0 td7 td8 p d v7 v8)
    as (d' & Hd' & Htx & Hrx); try done.
  exists d'. repeat split; try done.
  rewrite (rowBody_registered growslice st tr td0 p Htd Hp), H7, H8 in Hd'.
  unfold column in Hd'. rewrite Hv7, Hv8 in Hd'.
  unfold appendReceive, appendTransmit in Hd'. rewrite Hd in Hd'. cbn in Hd'.
  rewrite list_lookup_insert_eq in Hd' by (by eapply lookup_lt_Some). cbn in Hd'.
  rewrite list_lookup_insert_eq in Hd'
    by (rewrite length_insert; by eapply lookup_lt_Some).
  by injection Hd' as <-.
Qed.

Lemma registered_row_witness :
  let st := fst (fetchLanStatistics doubling registered noon
                   (Parsed (statisticsPage [statisticsRow laptop ["5"; "50"]]))) in
  let tr := mkCursor (statisticsRow laptop ["7"; "70"]) [] in
  exists d',
    objects (rowBody doubling st tr) !! 0 = Some d' /\
    DeviceName d' = "laptop" /\
    elems (arrays (rowBody doubling st tr)) (TransmitBytes d') = [5; 7]%Z /\
    elems (arrays (rowBody doubling st tr)) (ReceiveBytes d') = [5; 7; 70]%Z.
Proof.
  intros st tr.
  eapply (registered_row_receive_is_transmit_and_column_8 doubling st tr _ _ _ 0
            (mkDeviceData "laptop" (mkSlice 2 1 1) (mkSlice 3 2 2)) 7 70).
  - apply (reachable_wf doubling).
    apply reachable_fetchLanStatistics, reachable_registered.
  - reflexivity.
  - reflexivity.
  - reflexivity.
  - reflexivity.
  - reflexivity.
  - reflexivity.
  - reflexivity.
Defined.

(** * Which arrays the series of the devices are over *)

(** The series of a device as a reader sees them; empty for an address
    with no object. *)
Definition transmitSeries (st : Memory) (p : nat) : list Z :=
  match objects st !! p with
  | Some d => elems (arrays st) (TransmitBytes d)
  | None => []
  end.

Definition receiveSeries (st : Memory) (p : nat) : list Z :=
  match objects st !! p with
  | Some d => elems (arrays st) (ReceiveBytes d)
  | None => []
  end.

(** Beyond [wfMemory]: no receive series is over the array of the
    timestamps, and no device can write into the series of another. *)
Record separated (st : Memory) : Prop := mkSeparated {
  sep_receive : forall p d, objects st !! p = Some d ->
                  apart (ReceiveBytes d) (FetchMilliseconds (chartData st));
  sep_devices : forall p q dp dq, p <> q ->
                  objects st !! p = Some dp -> objects st !! q = Some dq ->
                  apart (TransmitBytes dq) (TransmitBytes dp) /\
                  apart (TransmitBytes dq) (ReceiveBytes dp)
}.

Definition sound (st : Memory) : Prop := wfMemory st /\ separated st.

Lemma okSlice_zerobase (m : Arrays) s :
  m !! 0 = Some [] -> okSlice m s -> base s <> 0 \/ cap s = 0.
Proof.
  intros H0 (_ & _ & Hc). destruct (decide (base s = 0)) as [Heq|]; [right|by left].
  unfold backing in Hc. by rewrite Heq, H0 in Hc.
Qed.

Lemma sound_initial : sound initial.
Proof. split; [apply wfMemory_initial|]. by constructor. Qed.

Lemma sound_register st mac name : sound st -> sound (register st mac name).
Proof.
  intros [Hwf [Hrx Hdev]]. split; [by apply register_wf|].
  destruct Hwf as [H0 Hts Htx Hrxok Hap].
  constructor; unfold register; cbn.
  - intros p d Hd. apply lookup_snoc_inv in Hd as [Hd|[_ ->]]; [by eapply Hrx|by right].
  - intros p q dp dq Hne Hp Hq.
    apply lookup_snoc_inv in Hp as [Hp|[-> ->]];
      apply lookup_snoc_inv in Hq as [Hq|[-> ->]].
    + exact (Hdev p q dp dq Hne Hp Hq).
    + split; by right.
    + unfold apart. cbn.
      destruct (okSlice_zerobase _ _ H0 (Htx q dq Hq)) as [?|?]; split; auto.
    + done.
Qed.

Section Separation.

Variable growslice : nat -> nat -> nat.

Lemma apart_append_l m s x t :
  base t < length m -> apart s t -> apart (snd (append growslice m s x)) t.
Proof.
  intros Ht Hap. destruct (append_base growslice m s x) as [[Heq Hroom]|Heq].
  - left. rewrite Heq. destruct Hap as [?|?]; [done|lia].
  - left. rewrite Heq. lia.
Qed.

Lemma apart_append_r m s x t :
  base t < length m -> apart t s -> apart t (snd (append growslice m s x)).
Proof.
  intros Ht Hap. destruct (append_base growslice m s x) as [[Heq Hroom]|Heq].
  - destruct Hap as [?|?]; [left|by right]. by rewrite Heq.
  - left. rewrite Heq. lia.
Qed.

Lemma sound_recordFetch st ms : sound st -> sound (recordFetch growslice st ms).
Proof.
  intros [Hwf [Hrx Hdev]]. split; [by apply recordFetch_wf|].
  destruct Hwf as [H0 Hts Htx Hrxok Hap].
  constructor; unfold recordFetch; cbn; [|done].
  intros p d Hd. apply apart_append_r; [apply (Hrxok p d Hd)|by eapply Hrx].
Qed.

Lemma sound_appendTransmit st p x : sound st -> sound (appendTransmit growslice st p x).
Proof.
  intros [Hwf [Hrx Hdev]]. split; [by apply appendTransmit_wf|].
  destruct Hwf as [H0 Hts Htx Hrxok Hap]. unfold appendTransmit.
  destruct (objects st !! p) as [d|] eqn:Hd; [|by constructor].
  pose proof (lookup_lt_Some _ _ _ Hd) as Hp.
  constructor; cbn.
  - intros q d' Hq. destruct (decide (q = p)) as [->|Hne].
    + rewrite list_lookup_insert_eq in Hq by done. injection Hq as <-. cbn. by eapply Hrx.
    + rewrite list_lookup_insert_ne in Hq by done. by eapply Hrx.
  - intros q r dq dr Hne Hq Hr.
    destruct (decide (q = p)) as [->|Hqp]; [|destruct (decide (r = p)) as [->|Hrp]].
    + rewrite list_lookup_insert_eq in Hq by done. injection Hq as <-.
      rewrite list_lookup_insert_ne in Hr by done. cbn.
      destruct (Hdev p r d dr Hne Hd Hr) as [Ht Hx]. split.
      * apply apart_append_r; [apply (Htx r dr Hr)|done].
      * done.
    + rewrite list_lookup_insert_eq in Hr by done. injection Hr as <-.
      rewrite list_lookup_insert_ne in Hq by done. cbn.
      destruct (Hdev q p dq d Hqp Hq Hd) as [Ht Hx]. split.
      * apply apart_append_l; [apply (Htx q dq Hq)|done].
      * apply apart_append_l; [apply (Hrxok q dq Hq)|done].
    + rewrite list_lookup_insert_ne in Hq, Hr by done. exact (Hdev q r dq dr Hne Hq Hr).
Qed.

Lemma sound_appendReceive st p x : sound st -> sound (appendReceive growslice st p x).
Proof.
  intros [Hwf [Hrx Hdev]]. split; [by apply appendReceive_wf|].
  destruct Hwf as [H0 Hts Htx Hrxok Hap]. unfold appendReceive.
  destruct (objects st !! p) as [d|] eqn:Hd; [|by constructor].
  pose proof (lookup_lt_Some _ _ _ Hd) as Hp.
  constructor; cbn.
  - intros q d' Hq. destruct (decide (q = p)) as [->|Hne].
    + rewrite list_lookup_insert_eq in Hq by done. injection Hq as <-. cbn.
      apply apart_append_l; [apply Hts|by eapply Hap].
    + rewrite list_lookup_insert_ne in Hq by done. by eapply Hrx.
  - intros q r dq dr Hne Hq Hr.
    destruct (decide (q = p)) as [->|Hqp]; [|destruct (decide (r = p)) as [->|Hrp]].
    + rewrite list_lookup_insert_eq in Hq by done. injection Hq as <-.
      rewrite list_lookup_insert_ne in Hr by done. cbn.
      destruct (Hdev p r d dr Hne Hd Hr) as [Ht Hx]. split; [done|].
      apply apart_append_r; [apply (Htx r dr Hr)|done].
    + rewrite list_lookup_insert_eq in Hr by done. injection Hr as <-.
      rewrite list_lookup_insert_ne in Hq by done. cbn.
      exact (Hdev q p dq d Hqp Hq Hd).
    + rewrite list_lookup_insert_ne in Hq, Hr by done. exact (Hdev q r dq dr Hne Hq Hr).
Qed.

Lemma reachable_sound st : reachable growslice st -> sound st.
Proof.
  induction 1 as [|st fetched _ IH|st now fetched _ IH].
  - apply sound_initial.
  - apply (fetchDevices_invariant sound); [|done]. intros. by apply sound_register.
  - apply (fetchLanStatistics_invariant growslice sound).
    + intros. by apply sound_appendTransmit.
    + intros. by apply sound_appendReceive.
    + by apply sound_recordFetch.
Qed.

(** The series that an append does not go to read as before. *)
Lemma recordFetch_series st ms p :
  sound st ->
  transmitSeries (recordFetch growslice st ms) p = transmitSeries st p /\
  receiveSeries (recordFetch growslice st ms) p = receiveSeries st p.
Proof.
  intros [[H0 Hts Htx Hrxok Hap] [Hrx Hdev]].
  unfold transmitSeries, receiveSeries, recordFetch. cbn.
  destruct (objects st !! p) as [d|] eqn:Hd; [|done]. split.
  - apply append_elems_other; [apply (Htx p d Hd)|].
    destruct (Hap p d Hd) as [Hne|Hcap]; [left; by left|right].
    destruct (Htx p d Hd) as (_ & Hl & _). lia.
  - apply append_elems_other; [apply (Hrxok p d Hd)|].
    destruct (Hrx p d Hd) as [Hne|Hcap]; [left; by left|right].
    destruct (Hrxok p d Hd) as (_ & Hl & _). lia.
Qed.

Lemma appendTransmit_series st p x q :
  sound st ->
  transmitSeries (appendTransmit growslice st p x) q
  = transmitSeries st q
    ++ (if decide (q = p /\ p < length (objects st)) then [x] else []) /\
  (q <> p -> receiveSeries (appendTransmit growslice st p x) q = receiveSeries st q).
Proof.
  intros [[H0 Hts Htx Hrxok Hap] [Hrx Hdev]].
  unfold transmitSeries, receiveSeries, appendTransmit.
  destruct (objects st !! p) as [d|] eqn:Hd.
  - pose proof (lookup_lt_Some _ _ _ Hd) as Hp. cbn.
    destruct (decide (q = p)) as [->|Hne].
    + rewrite list_lookup_insert_eq by done. cbn. rewrite decide_True by done.
      rewrite Hd. split; [|done]. apply append_elems. by eapply Htx.
    + rewrite list_lookup_insert_ne by done. rewrite decide_False by tauto.
      rewrite app_nil_r.
      destruct (objects st !! q) as [dq|] eqn:Hq; [|done].
      destruct (Hdev q p dq d Hne Hq Hd) as [Ht Hx].
      split; [|intros _]; (apply append_elems_other; [|by left]).
      * apply (Htx q dq Hq).
      * apply (Hrxok q dq Hq).
  - apply lookup_ge_None in Hd. rewrite decide_False by lia. by rewrite app_nil_r.
Qed.

Lemma appendReceive_series st p x q :
  sound st ->
  transmitSeries (appendReceive growslice st p x) q = transmitSeries st q /\
  receiveSeries (appendReceive growslice st p x) q
  = if decide (q = p /\ p < length (objects st))
    then transmitSeries st p ++ [x] else receiveSeries st q.
Proof.
  intros [[H0 Hts Htx Hrxok Hap] [Hrx Hdev]].
  unfold transmitSeries, receiveSeries, appendReceive.
  destruct (objects st !! p) as [d|] eqn:Hd.
  - pose proof (lookup_lt_Some _ _ _ Hd) as Hp. cbn.
    destruct (decide (q = p)) as [->|Hne].
    + rewrite list_lookup_insert_eq by done. cbn. rewrite decide_True by done.
      rewrite Hd. split.
      * apply append_elems_other; [apply (Htx p d Hd)|by right].
      * apply append_elems. by eapply Htx.
    + rewrite list_lookup_insert_ne by done. rewrite decide_False by tauto.
      destruct (objects st !! q) as [dq|] eqn:Hq; [|done].
      destruct (Hdev q p dq d Hne Hq Hd) as [Ht Hx].
      split; (apply append_elems_other; [|by left]).
      * apply (Htx q dq Hq).
      * apply (Hrxok q dq Hq).
  - apply lookup_ge_None in Hd. rewrite decide_False by lia. done.
Qed.

End Separation.

(** * What a statistics pass does to the series *)

(** The value a row holds for the transmit series: its cell in column 7,
    when the trimmed text parses. *)
Definition column7Value (tr : Cursor) : option Z :=
  chain (findDescendant (here tr) isTd) !! 7 ≫= fun td =>
  match ParseInt (cellText td) 32 with
  | (v, None) => Some v
  | (_, Some _) => None
  end.

(** That value, for the rows that resolve to the object [p]. *)
Definition rowTransmitValue (st : Memory) (p : nat) (tr : Cursor) : option Z :=
  if decide (rowDevice st tr = Some p) then column7Value tr else None.

(** Every address of the map leads to an object. *)
Definition mapped (st : Memory) : Prop :=
  forall mac q, macAddressToDevice (chartData st) !! mac = Some q ->
                q < length (objects st).

Section PassSeries.

Variable growslice : nat -> nat -> nat.

Lemma column_transmit_sound st p td :
  sound st -> sound (column (appendTransmit growslice) st p td).
Proof.
  intros H. unfold column. destruct td as [td|]; [|done].
  destruct (ParseInt _ _) as [v [e|]]; [done|]. by apply sound_appendTransmit.
Qed.

Lemma column_receive_sound st p td :
  sound st -> sound (column (appendReceive growslice) st p td).
Proof.
  intros H. unfold column. destruct td as [td|]; [|done].
  destruct (ParseInt _ _) as [v [e|]]; [done|]. by apply sound_appendReceive.
Qed.

Lemma rowBody_sound st tr : sound st -> sound (rowBody growslice st tr).
Proof.
  intros H. unfold rowBody. apply (cellsLoop_invariant growslice sound); [| |done].
  - intros. by apply sound_appendTransmit.
  - intros. by apply sound_appendReceive.
Qed.

Lemma rowBody_objects_length st tr :
  length (objects (rowBody growslice st tr)) = length (objects st).
Proof.
  unfold rowBody.
  apply (cellsLoop_invariant growslice
           (fun st' => length (objects st') = length (objects st))); [| |done].
  - intros st' p x <-. unfold appendTransmit.
    destruct (objects st' !! p); [|done]. cbn. apply length_insert.
  - intros st' p x <-. unfold appendReceive.
    destruct (objects st' !! p); [|done]. cbn. apply length_insert.
Qed.

(** A row whose first cell resolves to nothing, or that has no cell. *)
Lemma rowBody_no_device st tr : rowDevice st tr = None -> rowBody growslice st tr = st.
Proof.
  unfold rowDevice, statisticsAddress, rowBody.
  destruct (findDescendant (here tr) isTd) as [td|]; cbn; [|by simp cellsLoop].
  intros Hmac. simp cellsLoop. unfold cellBody.
  rewrite !parseAndAppend_other_column by lia. rewrite decide_True by done.
  cbn [fst snd]. rewrite Hmac.
  by apply (cellsLoop_no_device growslice st (remaining (findFollowupSibling td))).
Qed.

Lemma rowBody_series st tr p :
  sound st -> mapped st ->
  transmitSeries (rowBody growslice st tr) p
  = transmitSeries st p ++ option_list (rowTransmitValue st p tr) /\
  (rowDevice st tr <> Some p ->
   receiveSeries (rowBody growslice st tr) p = receiveSeries st p).
Proof.
  intros Hsound Hmapped. unfold rowTransmitValue.
  destruct (rowDevice st tr) as [q|] eqn:Hq.
  2:{ rewrite rowBody_no_device by done. rewrite decide_False by done.
      by rewrite app_nil_r. }
  pose proof Hq as Hq'. apply rowDevice_Some in Hq' as (mac & Hmac & Hres).
  unfold statisticsAddress in Hmac.
  destruct (findDescendant (here tr) isTd) as [td0|] eqn:Htd; [|done].
  cbn in Hmac. injection Hmac as <-.
  pose proof (Hmapped _ _ Hres) as Halloc.
  rewrite (rowBody_registered growslice st tr td0 q Htd Hres).
  unfold column7Value. rewrite Htd.
  set (c7 := chain (Some td0) !! 7). set (c8 := chain (Some td0) !! 8).
  set (st7 := column (appendTransmit growslice) st q c7).
  assert (Hsound7 : sound st7) by (by apply column_transmit_sound).
  assert (H7 : transmitSeries st7 p
               = transmitSeries st p
                 ++ (if decide (Some q = Some p)
                     then option_list (c7 ≫= fun td =>
                            match ParseInt (cellText td) 32 with
                            | (v, None) => Some v
                            | (_, Some _) => None
                            end)
                     else []) /\
               (Some q <> Some p -> receiveSeries st7 p = receiveSeries st p)).
  { unfold st7, column. destruct c7 as [td7|]; cbn.
    2:{ split; [|done]. case_decide; by rewrite app_nil_r. }
    destruct (ParseInt (cellText td7) 32) as [v [e|]].
    { split; [|done]. case_decide; by rewrite app_nil_r. }
    destruct (appendTransmit_series growslice st q v p Hsound) as [Htx Hrx].
    split.
    - rewrite Htx. f_equal. repeat case_decide; naive_solver.
    - intros Hne. apply Hrx. congruence. }
  destruct H7 as [H7tx H7rx].
  assert (H8 : transmitSeries (column (appendReceive growslice) st7 q c8) p
               = transmitSeries st7 p /\
               (Some q <> Some p ->
                receiveSeries (column (appendReceive growslice) st7 q c8) p
                = receiveSeries st7 p)).
  { unfold column. destruct c8 as [td8|]; [|done].
    destruct (ParseInt (cellText td8) 32) as [v [e|]]; [done|].
    destruct (appendReceive_series growslice st7 q v p Hsound7) as [Htx Hrx].
    split; [done|]. intros Hne. rewrite Hrx. rewrite decide_False; [done|].
    intros [-> _]. done. }
  destruct H8 as [H8tx H8rx]. split.
  - rewrite H8tx, H7tx. f_equal. by repeat case_decide.
  - intros Hne. by rewrite H8rx, H7rx.
Qed.

Lemma mapped_chartData st st' :
  chartData st' = chartData st -> length (objects st') = length (objects st) ->
  mapped st -> mapped st'.
Proof. unfold mapped. intros -> ->. done. Qed.

Lemma rows_series rows : forall st p,
  sound st -> mapped st ->
  transmitSeries (foldl (rowBody growslice) st rows) p
  = transmitSeries st p ++ omap (rowTransmitValue st p) rows /\
  (Forall (fun tr => rowDevice st tr <> Some p) rows ->
   receiveSeries (foldl (rowBody growslice) st rows) p = receiveSeries st p).
Proof.
  induction rows as [|tr rows IH]; intros st p Hsound Hmapped; cbn [foldl].
  { cbn. by rewrite app_nil_r. }
  destruct (rowBody_series st tr p Hsound Hmapped) as [Htx Hrx].
  destruct (IH (rowBody growslice st tr) p) as [IHtx IHrx].
  { by apply rowBody_sound. }
  { eapply mapped_chartData; [apply rowBody_chartData|apply rowBody_objects_length|done]. }
  assert (Hsame : forall tr0, rowDevice (rowBody growslice st tr) tr0 = rowDevice st tr0).
  { intros tr0. apply rowDevice_chartData, rowBody_chartData. }
  split.
  - rewrite IHtx, Htx, <- app_assoc. f_equal. cbn [omap list_omap].
    assert (Hvals : omap (rowTransmitValue (rowBody growslice st tr) p) rows
                    = omap (rowTransmitValue st p) rows).
    { apply list_omap_ext, Forall2_same_length_lookup. split; [done|].
      intros i tr1 tr2 H1 H2. rewrite H1 in H2. injection H2 as <-.
      unfold rowTransmitValue. by rewrite Hsame. }
    rewrite Hvals. by destruct (rowTransmitValue st p tr).
  - intros [Hne Hrest]%Forall_cons. rewrite IHrx, Hrx; [done|done|].
    eapply Forall_impl; [exact Hrest|]. intros tr0. by rewrite Hsame.
Qed.

End PassSeries.

Lemma ParseInt32_inInt32 s v : ParseInt s 32 = (v, None) -> inInt32 v.
Proof.
  intros H. pose proof (ParseInt32_spec s) as Hspec.
  destruct (decimalValue s) as [v'|].
  - destruct (decide (inInt32 v')) as [Hin|Hout].
    + rewrite H in Hspec. by injection Hspec as ->.
    + by rewrite H in Hspec.
  - by rewrite H in Hspec.
Qed.

Lemma append_elems_Forall (P : Z -> Prop) growslice (m : Arrays) s x t :
  base t < length m -> P x ->
  Forall P (elems m t) -> Forall P (elems (fst (append growslice m s x)) t).
Proof.
  intros Ht Hx Hall. unfold append, elems in *. case_decide; cbn [fst snd].
  - destruct (decide (base t = base s)) as [Heq|Hne].
    + rewrite backing_insert_eq by (done || lia).
      replace (backing m s) with (backing m t) by (unfold backing; by rewrite Heq).
      destruct (decide (len s < len t)) as [Hlt|Hge].
      * rewrite take_insert_lt by done. by apply Forall_insert.
      * by rewrite take_insert_ge by lia.
    + by rewrite backing_insert_ne.
  - by rewrite backing_old.
Qed.

Section PassTheorems.

Variable growslice : nat -> nat -> nat.

Lemma reachable_mapped st : reachable growslice st -> mapped st.
Proof.
  intros Hreach mac q Hq.
  destruct (reachable_viewsAgree growslice st Hreach) as [_ Hmap _ _].
  apply Hmap. eauto.
Qed.

(** Whatever both appends keep for values within 32 bits, the pass keeps. *)
Section InvariantInRange.

Variable P : Memory -> Prop.
Hypothesis P_transmit : forall st p x,
  inInt32 x -> P st -> P (appendTransmit growslice st p x).
Hypothesis P_receive : forall st p x,
  inInt32 x -> P st -> P (appendReceive growslice st p x).

Lemma cellBody_invariant_inInt32 st td columnIndex dev :
  P st -> P (fst (cellBody growslice st td columnIndex dev)).
Proof.
  intros H. unfold cellBody, parseAndAppend. cbn [fst].
  repeat case_match; try done; subst;
    repeat match goal with
           | Hp : ParseInt _ _ = (_, None) |- _ => apply ParseInt32_inInt32 in Hp
           end; auto.
Qed.

Lemma fetchLanStatistics_invariant_inInt32 st now fetched :
  P (recordFetch growslice st (now ÷ 1000000)%Z) ->
  P (fst (fetchLanStatistics growslice st now fetched)).
Proof.
  intros H. unfold fetchLanStatistics.
  destruct fetched as [doc|err]; [|done].
  destruct (findDescendant doc isStatisticsTable) as [table|]; [|done].
  destruct (findDescendant (here table) isTr) as [tr|]; [|done].
  cbn [fst]. rewrite rowsLoop_chain.
  generalize (chain (findFollowupSibling tr)). intros rows.
  revert H. generalize (recordFetch growslice st (now ÷ 1000000)%Z). clear st.
  induction rows as [|r rows IH]; intros st H; cbn [foldl]; [done|].
  apply IH. unfold rowBody. rewrite cellsLoop_chain.
  generalize (chain (findDescendant (here r) isTd)) 0 (@None nat). intros tds.
  revert st H. induction tds as [|td tds IHtds]; intros st H c dev; cbn [cellsFold]; [done|].
  by apply IHtds, cellBody_invariant_inInt32.
Qed.

End InvariantInRange.

Definition seriesInRange (st : Memory) : Prop :=
  sound st /\
  forall p, Forall inInt32 (transmitSeries st p) /\ Forall inInt32 (receiveSeries st p).

Lemma seriesInRange_register st mac name :
  seriesInRange st -> seriesInRange (register st mac name).
Proof.
  intros [Hsound Hall]. split; [by apply sound_register|]. intros p.
  specialize (Hall p). unfold transmitSeries, receiveSeries, register in *. cbn.
  destruct ((objects st ++ _) !! p) as [d|] eqn:Hd; [|by split].
  apply lookup_snoc_inv in Hd as [Hd|[_ ->]]; [by rewrite Hd in Hall|].
  by split.
Qed.

Lemma seriesInRange_recordFetch st ms :
  seriesInRange st -> seriesInRange (recordFetch growslice st ms).
Proof.
  intros [Hsound Hall]. split; [by apply sound_recordFetch|]. intros p.
  destruct (recordFetch_series growslice st ms p Hsound) as [-> ->]. apply Hall.
Qed.

Lemma seriesInRange_appendTransmit st p x :
  inInt32 x -> seriesInRange st -> seriesInRange (appendTransmit growslice st p x).
Proof.
  intros Hx [Hsound Hall]. split; [by apply sound_appendTransmit|]. intros q.
  destruct (appendTransmit_series growslice st p x q Hsound) as [Htx Hrx]. split.
  - rewrite Htx. apply Forall_app. split; [apply Hall|].
    case_decide; [by apply Forall_singleton|constructor].
  - destruct (decide (q = p)) as [->|Hne]; [|rewrite Hrx by done; apply Hall].
    specialize (Hall p) as [_ Hall]. destruct Hsound as [[H0 Hts Htx' Hrxok Hap] _].
    unfold receiveSeries, appendTransmit in *.
    destruct (objects st !! p) as [d|] eqn:Hd; [|by rewrite Hd]. cbn.
    rewrite list_lookup_insert_eq by (by eapply lookup_lt_Some). cbn.
    apply append_elems_Forall; [apply (Hrxok p d Hd)|done|done].
Qed.

Lemma seriesInRange_appendReceive st p x :
  inInt32 x -> seriesInRange st -> seriesInRange (appendReceive growslice st p x).
Proof.
  intros Hx [Hsound Hall]. split; [by apply sound_appendReceive|]. intros q.
  destruct (appendReceive_series growslice st p x q Hsound) as [-> ->].
  split; [apply Hall|]. case_decide; [|apply Hall].
  apply Forall_app. split; [apply Hall|by apply Forall_singleton].
Qed.

Lemma reachable_seriesInRange st : reachable growslice st -> seriesInRange st.
Proof.
  induction 1 as [|st fetched _ IH|st now fetched _ IH].
  - split; [apply sound_initial|]. by intros p.
  - apply (fetchDevices_invariant seriesInRange); [|done].
    intros. by apply seriesInRange_register.
  - apply (fetchLanStatistics_invariant_inInt32 seriesInRange).
    + intros. by apply seriesInRange_appendTransmit.
    + intros. by apply seriesInRange_appendReceive.
    + by apply seriesInRange_recordFetch.
Qed.

(** The rows a statistics pass goes through for what it fetched. *)
Definition passRows (fetched : Fetched) : list Cursor :=
  match fetched with
  | Parsed doc => statisticsRows doc
  | Failed _ => []
  end.

Lemma fetchLanStatistics_passRows st now fetched :
  fst (fetchLanStatistics growslice st now fetched)
  = foldl (rowBody growslice) (recordFetch growslice st (now ÷ 1000000)%Z)
          (passRows fetched).
Proof.
  unfold fetchLanStatistics, passRows, statisticsRows.
  destruct fetched as [doc|err]; [|done].
  destruct (findDescendant doc isStatisticsTable) as [table|]; [|done].
  destruct (findDescendant (here table) isTr) as [tr|]; [|done].
  cbn [fst]. apply rowsLoop_chain.
Qed.

Lemma rowTransmitValue_ext st st' p tr :
  macAddressToDevice (chartData st') = macAddressToDevice (chartData st) ->
  rowTransmitValue st' p tr = rowTransmitValue st p tr.
Proof. intros H. unfold rowTransmitValue, rowDevice. by rewrite H. Qed.

Lemma pass_series st now fetched p :
  sound st -> mapped st ->
  let st' := fst (fetchLanStatistics growslice st now fetched) in
  transmitSeries st' p
  = transmitSeries st p ++ omap (rowTransmitValue st p) (passRows fetched) /\
  (Forall (fun tr => rowDevice st tr <> Some p) (passRows fetched) ->
   receiveSeries st' p = receiveSeries st p).
Proof.
  intros Hsound Hmapped st'. unfold st'. rewrite fetchLanStatistics_passRows.
  set (st1 := recordFetch growslice st (now ÷ 1000000)%Z).
  assert (Hmap : macAddressToDevice (chartData st1) = macAddressToDevice (chartData st))
    by done.
  destruct (recordFetch_series growslice st (now ÷ 1000000)%Z p Hsound) as [Htx Hrx].
  destruct (rows_series growslice (passRows fetched) st1 p) as [Htx' Hrx'].
  { by apply sound_recordFetch. }
  { intros mac q Hq. apply (Hmapped mac q Hq). }
  subst st1. split.
  - by rewrite Htx', Htx.
  - intros Hall. rewrite Hrx', Hrx; [done|].
    eapply Forall_impl; [exact Hall|]. intros tr. unfold rowDevice. by rewrite Hmap.
Qed.

End PassTheorems.

(** * What the passes leave in the series *)

(** X9. A statistics pass appends to the transmit series of each device, in
    document order, the column-7 values of the rows whose first cell is a
    registered address of that device and whose column 7 parses within 32
    bits, and nothing else; the receive series of a device that no row
    resolves to is left as it was. *)
Theorem statistics_pass_appends_column_7_of_resolved_rows
    (growslice : nat -> nat -> nat) (st : Memory) (now : Z) (fetched : Fetched)
    (p : nat) :
  reachable growslice st ->
  let st' := fst (fetchLanStatistics growslice st now fetched) in
  transmitSeries st' p
  = transmitSeries st p ++ omap (rowTransmitValue st p) (passRows fetched) /\
  (Forall (fun tr => rowDevice st tr <> Some p) (passRows fetched) ->
   receiveSeries st' p = receiveSeries st p).
Proof.
  intros Hreach. apply pass_series.
  - by eapply reachable_sound.
  - by eapply reachable_mapped.
Qed.

Lemma statistics_pass_appends_witness :
  let doc := statisticsPage [statisticsRow laptop ["1024"; "2048"];
                             statisticsRow "11:22:33:44:55:66" ["7"];
                             statisticsRow laptop ["4294967296"];
                             statisticsRow laptop [" 12 "]] in
  transmitSeries (fst (fetchLanStatistics doubling registered noon (Parsed doc))) 0
  = [1024%Z; 12%Z].
Proof.
  intros doc.
  edestruct (statistics_pass_appends_column_7_of_resolved_rows
               doubling registered noon (Parsed doc) 0) as [Htx _].
  { apply reachable_fetchDevices, reachable_initial. }
  etransitivity; [exact Htx|]. vm_compute. reflexivity.
Defined.

(** X10. Every value in a series of a store the program can be in lies within the
    signed 32-bit range, although the series are of 64-bit integers. *)
Theorem stored_counters_fit_int32
    (growslice : nat -> nat -> nat) (st : Memory) (p : nat) :
  reachable growslice st ->
  Forall inInt32 (transmitSeries st p) /\ Forall inInt32 (receiveSeries st p).
Proof. intros Hreach. by apply (reachable_seriesInRange growslice st Hreach). Qed.

Lemma stored_counters_witness :
  let st := fst (fetchLanStatistics doubling registered noon
                   (Parsed (statisticsPage
                              [statisticsRow laptop ["2147483647"; "-2147483648"]]))) in
  Forall inInt32 (transmitSeries st 0) /\ Forall inInt32 (receiveSeries st 0).
Proof.
  intros st. apply (stored_counters_fit_int32 doubling).
  apply reachable_fetchLanStatistics, reachable_fetchDevices, reachable_initial.
Defined.

(** X11. A statistics pass that returns an error has changed nothing but the
    timestamps: every record keeps its name and both of its series. *)
Theorem failed_statistics_pass_keeps_every_series
    (growslice : nat -> nat -> nat) (st : Memory) (now : Z) (fetched : Fetched)
    (err : string) (p : nat) :
  reachable growslice st ->
  snd (fetchLanStatistics growslice st now fetched) = Some err ->
  let st' := fst (fetchLanStatistics growslice st now fetched) in
  objects st' = objects st /\
  macAddressToDevice (chartData st') = macAddressToDevice (chartData st) /\
  Devices (chartData st') = Devices (chartData st) /\
  transmitSeries st' p = transmitSeries st p /\
  receiveSeries st' p = receiveSeries st p.
Proof.
  intros Hreach Herr st'.
  assert (Hst' : st' = recordFetch growslice st (now ÷ 1000000)%Z).
  { unfold st'. unfold fetchLanStatistics in *.
    destruct fetched as [doc|e]; [|done].
    destruct (findDescendant doc isStatisticsTable) as [table|]; [|done].
    by destruct (findDescendant (here table) isTr) as [tr|]. }
  rewrite Hst'.
  destruct (recordFetch_series growslice st (now ÷ 1000000)%Z p) as [Htx Hrx].
  { by eapply reachable_sound. }
  by repeat split.
Qed.

Lemma failed_statistics_pass_witness :
  let st := fst (fetchLanStatistics doubling registered noon
                   (Parsed (statisticsPage [statisticsRow laptop ["5"; "6"]]))) in
  let st' := fst (fetchLanStatistics doubling st noon (Parsed (devicesPage []))) in
  transmitSeries st' 0 = [5%Z] /\ receiveSeries st' 0 = [5%Z; 6%Z].
Proof.
  intros st st'.
  edestruct (failed_statistics_pass_keeps_every_series
               doubling st noon (Parsed (devicesPage [])) "Table not found" 0)
    as (_ & _ & _ & Htx & Hrx).
  { apply reachable_fetchLanStatistics, reachable_fetchDevices, reachable_initial. }
  { reflexivity. }
  split; (etransitivity; [eassumption|]); vm_compute; reflexivity.
Defined.

(** * The program as a whole *)

Section Program.

Variable growslice : nat -> nat -> nat.

(** The goroutine of [main]: one statistics pass per cycle, whose error is
    logged and dropped. A cycle is the clock reading of the pass and what it
    fetched. *)
Definition statisticsCycles (st : Memory) (cycles : list (Z * Fetched)) : Memory :=
  foldl (fun st cycle => fst (fetchLanStatistics growslice st (fst cycle) (snd cycle)))
        st cycles.

(** [main], as the store after the cycles given: it builds the store, runs
    the registry pass once and ends on its error ([log.Fatal]) or its panic;
    the handlers leave the store as it is. *)
Definition main (startup : Fetched) (cycles : list (Z * Fetched)) : option Memory :=
  match fetchDevices initial startup with
  | Returned st None => Some (statisticsCycles st cycles)
  | Returned _ (Some _) => None
  | Panicked _ => None
  end.

Definition names (st : Memory) : list string := map DeviceName (objects st).

Definition timestamps (st : Memory) : list Z :=
  elems (arrays st) (FetchMilliseconds (chartData st)).

Lemma names_appendTransmit st p x : names (appendTransmit growslice st p x) = names st.
Proof.
  unfold names, appendTransmit. destruct (objects st !! p) as [d|] eqn:Hd; [|done].
  cbn. rewrite list_fmap_insert. cbn. apply list_insert_id.
  by rewrite list_lookup_fmap, Hd.
Qed.

Lemma names_appendReceive st p x : names (appendReceive growslice st p x) = names st.
Proof.
  unfold names, appendReceive. destruct (objects st !! p) as [d|] eqn:Hd; [|done].
  cbn. rewrite list_fmap_insert. cbn. apply list_insert_id.
  by rewrite list_lookup_fmap, Hd.
Qed.

Lemma fetchLanStatistics_names st now fetched :
  names (fst (fetchLanStatistics growslice st now fetched)) = names st.
Proof.
  apply (fetchLanStatistics_invariant growslice (fun st' => names st' = names st));
    [| |done].
  - intros st' p x <-. apply names_appendTransmit.
  - intros st' p x <-. apply names_appendReceive.
Qed.

Lemma fetchLanStatistics_timestamps st now fetched :
  wfMemory st ->
  timestamps (fst (fetchLanStatistics growslice st now fetched))
  = timestamps st ++ [(now ÷ 1000000)%Z].
Proof.
  intros Hwf. unfold timestamps.
  rewrite <- (recordFetch_elems growslice st _ Hwf).
  apply (fetchLanStatistics_invariant growslice
           (sameFetches (recordFetch growslice st (now ÷ 1000000)%Z))).
  - intros. by apply sameFetches_appendTransmit.
  - intros. by apply sameFetches_appendReceive.
  - split; [by apply recordFetch_wf|done].
Qed.

(** What the registry pass leaves when it starts from the store [main]
    builds: no timestamp and no value in any series. *)
Definition blank (st : Memory) : Prop :=
  timestamps st = [] /\ forall p, transmitSeries st p = [].

Lemma blank_startup startup : blank (stateOf (fetchDevices initial startup)).
Proof.
  apply (fetchDevices_invariant blank); [|by split].
  intros st mac name [Hts Htx]. split; [done|]. intros p.
  specialize (Htx p). unfold transmitSeries, register in *. cbn.
  destruct ((objects st ++ _) !! p) as [d|] eqn:Hd; [|done].
  apply lookup_snoc_inv in Hd as [Hd|[_ ->]]; [by rewrite Hd in Htx|done].
Qed.

Lemma statisticsCycles_reachable st cycles :
  reachable growslice st -> reachable growslice (statisticsCycles st cycles).
Proof.
  revert st. induction cycles as [|[now fetched] cycles IH]; intros st H; [done|].
  apply IH. by apply reachable_fetchLanStatistics.
Qed.

Lemma statisticsCycles_store st cycles :
  reachable growslice st ->
  let st' := statisticsCycles st cycles in
  macAddressToDevice (chartData st') = macAddressToDevice (chartData st) /\
  Devices (chartData st') = Devices (chartData st) /\
  names st' = names st /\
  timestamps st' = timestamps st ++ map (fun cycle => (fst cycle ÷ 1000000)%Z) cycles /\
  forall p,
    transmitSeries st' p
    = transmitSeries st p
      ++ concat (map (fun cycle => omap (rowTransmitValue st p) (passRows (snd cycle)))
                     cycles).
Proof.
  revert st. induction cycles as [|[now fetched] cycles IH]; intros st Hreach.
  { cbn. rewrite !app_nil_r. repeat split; try done. intros p. by rewrite app_nil_r. }
  cbn [statisticsCycles foldl fst snd map concat].
  set (st1 := fst (fetchLanStatistics growslice st now fetched)).
  destruct (IH st1) as (Hmap & Hdev & Hnames & Hts & Htx).
  { by apply reachable_fetchLanStatistics. }
  destruct (fetchLanStatistics_sameViews growslice st now fetched) as (Hmap1 & Hdev1 & _).
  fold st1 in Hmap1, Hdev1. unfold statisticsCycles in *. cbn zeta in *.
  repeat split.
  - by rewrite Hmap.
  - by rewrite Hdev.
  - rewrite Hnames. apply fetchLanStatistics_names.
  - rewrite Hts. unfold st1.
    rewrite fetchLanStatistics_timestamps by (by eapply reachable_wf).
    by rewrite <- app_assoc.
  - intros p. rewrite Htx.
    destruct (pass_series growslice st now fetched p) as [Hp _].
    { by eapply reachable_sound. }
    { by eapply reachable_mapped. }
    fold st1 in Hp. rewrite Hp, <- app_assoc. do 2 f_equal.
    f_equal. apply map_ext. intros [now' fetched']. cbn.
    apply list_omap_ext, Forall2_same_length_lookup.
    split; [done|]. intros i tr1 tr2 H1 H2. rewrite H1 in H2. injection H2 as <-.
    by apply rowTransmitValue_ext.
Qed.

End Program.

(** X12. When [main] gets past the registry pass, the devices, their addresses and
    their names stay as that pass left them through all the cycles; there is
    one timestamp per cycle, the clock reading in milliseconds, in order; and
    the transmit series of a device is, cycle after cycle, the column-7
    values of the rows filed under its addresses. *)
Theorem main_store_after_cycles
    (growslice : nat -> nat -> nat) (startup : Fetched)
    (cycles : list (Z * Fetched)) (st : Memory) :
  main growslice startup cycles = Some st ->
  let st0 := stateOf (fetchDevices initial startup) in
  macAddressToDevice (chartData st) = macAddressToDevice (chartData st0) /\
  Devices (chartData st) = Devices (chartData st0) /\
  names st = names st0 /\
  timestamps st = map (fun cycle => (fst cycle ÷ 1000000)%Z) cycles /\
  forall p,
    transmitSeries st p
    = concat (map (fun cycle => omap (rowTransmitValue st0 p) (passRows (snd cycle)))
                  cycles).
Proof.
  intros Hmain st0. destruct (blank_startup startup) as [Hts Htx]. fold st0 in Hts, Htx.
  assert (Hst : st = statisticsCycles growslice st0 cycles).
  { unfold main in Hmain. unfold st0.
    destruct (fetchDevices initial startup) as [st1 [e|]|st1]; try done.
    by injection Hmain as <-. }
  destruct (statisticsCycles_store growslice st0 cycles)
    as (Hmap & Hdev & Hnames & Hts' & Htx').
  { apply reachable_fetchDevices, reachable_initial. }
  rewrite Hst. repeat split; try done.
  - by rewrite Hts', Hts.
  - intros p. by rewrite Htx', Htx.
Qed.

Lemma main_store_witness :
  let startup := Parsed (devicesPage [macRow laptop; nameRow "laptop"]) in
  let cycles :=
    [(1700000000123456789%Z,
      Parsed (statisticsPage [statisticsRow laptop ["10"; "20"]]));
     (1700000010123456789%Z, Failed "connection refused");
     (1700000020123456789%Z,
      Parsed (statisticsPage [statisticsRow laptop ["30"; "40"]]))] in
  exists st,
    main doubling startup cycles = Some st /\
    timestamps st = [1700000000123%Z; 1700000010123%Z; 1700000020123%Z] /\
    transmitSeries st 0 = [10%Z; 30%Z].
Proof.
  intros startup cycles.
  assert (Hmain : main doubling startup cycles
                  = Some (statisticsCycles doubling registered cycles))
    by reflexivity.
  eexists. split; [exact Hmain|].
  destruct (main_store_after_cycles doubling startup cycles _ Hmain)
    as (_ & _ & _ & Hts & Htx).
  split.
  - etransitivity; [exact Hts|]. reflexivity.
  - etransitivity; [exact (Htx 0)|]. vm_compute. reflexivity.
Defined.

(** * The strings the registry pass stores *)

Lemma IndexByte_RemoveByte s c : IndexByte (RemoveByte s c) c = false.
Proof.
  induction s as [|c' s IH]; [done|]. cbn.
  destruct (decide (c' = c)) as [->|Hne]; [done|]. cbn. by rewrite decide_False.
Qed.

Lemma TrimLeft_fixed s cutset : TrimLeft (TrimLeft s cutset) cutset = TrimLeft s cutset.
Proof.
  induction s as [|c s IH]; [done|]. cbn.
  destruct (IndexByte cutset c) eqn:Hc; [done|]. cbn. by rewrite Hc.
Qed.

Lemma TrimRight_fixed s cutset :
  TrimRight (TrimRight s cutset) cutset = TrimRight s cutset.
Proof.
  induction s as [|c s IH]; [done|]. cbn.
  destruct (TrimRight s cutset) as [|c' kept] eqn:Hs.
  - destruct (IndexByte cutset c) eqn:Hc; [done|]. cbn. by rewrite Hc.
  - cbn [TrimRight] in *. by rewrite IH.
Qed.

Lemma TrimRight_TrimLeft s cutset :
  TrimRight s cutset = s -> TrimRight (TrimLeft s cutset) cutset = TrimLeft s cutset.
Proof.
  induction s as [|c s IH]; [done|]. intros Hs. cbn [TrimLeft].
  destruct (IndexByte cutset c) eqn:Hc; [|done]. apply IH.
  cbn [TrimRight] in Hs. destruct (TrimRight s cutset) as [|c' kept] eqn:Hk.
  - rewrite Hc in Hs. done.
  - by injection Hs.
Qed.

Lemma Trim_fixed s cutset : Trim (Trim s cutset) cutset = Trim s cutset.
Proof.
  unfold Trim. rewrite TrimRight_TrimLeft by apply TrimRight_fixed.
  apply TrimLeft_fixed.
Qed.

(** Whatever registering the text of one cell under the text of another
    keeps, the registry pass keeps. *)
Section RegistryCells.

Variable P : Memory -> Prop.
Hypothesis P_register : forall st td td',
  P st -> P (register st (cellText td) (RemoveByte (cellText td') newline)).

Lemma devicesBody_invariant_cells st tr : P st -> P (fst (devicesBody st tr)).
Proof.
  intros H. unfold devicesBody.
  repeat case_match; cbn; try done. by apply P_register.
Qed.

Lemma devicesLoop_invariant_cells st tr : P st -> P (stateOf (devicesLoop st tr)).
Proof.
  remember (remaining tr) as n eqn:Hn. revert st tr Hn.
  induction n as [n IH] using lt_wf_ind. intros st [tr|] Hn HP; [|done].
  rewrite devicesLoop_turn.
  pose proof (devicesBody_invariant_cells st tr HP) as HP'.
  destruct (devicesBody st tr) as [st' [tr'|]] eqn:E; [|done].
  eapply IH; [|done|done].
  pose proof (devicesBody_remaining _ _ _ _ E).
  pose proof (findFollowupSibling_remaining tr'). lia.
Qed.

Lemma fetchDevices_invariant_cells st fetched :
  P st -> P (stateOf (fetchDevices st fetched)).
Proof.
  intros H. unfold fetchDevices. destruct fetched as [doc|err]; [|done].
  destruct (findDescendant doc isDevicesTable); [|done].
  by apply devicesLoop_invariant_cells.
Qed.

End RegistryCells.

(** No address has a blank at either end, and no name holds a line break. *)
Definition cleanStrings (st : Memory) : Prop :=
  (forall mac p, macAddressToDevice (chartData st) !! mac = Some p ->
     Trim mac blanks = mac) /\
  Forall (fun name => IndexByte name newline = false) (names st).

Lemma cleanStrings_register st td td' :
  cleanStrings st ->
  cleanStrings (register st (cellText td) (RemoveByte (cellText td') newline)).
Proof.
  intros [Hmac Hname]. split.
  - intros mac p. unfold register. cbn.
    destruct (decide (mac = cellText td)) as [->|Hne].
    + intros _. apply Trim_fixed.
    + rewrite lookup_insert_ne by done. apply Hmac.
  - unfold names, register in *. cbn. rewrite map_app. apply Forall_app.
    split; [done|]. apply Forall_singleton, IndexByte_RemoveByte.
Qed.

(** X13. In every store the program can be in, an address the map holds is what
    [strings.Trim] leaves of it, so it has no space, tab or line break at
    either end, and no device name holds a line break. *)
Theorem registered_strings_are_trimmed
    (growslice : nat -> nat -> nat) (st : Memory) :
  reachable growslice st ->
  (forall mac p, macAddressToDevice (chartData st) !! mac = Some p ->
     Trim mac blanks = mac) /\
  (forall p d, objects st !! p = Some d -> IndexByte (DeviceName d) newline = false).
Proof.
  intros Hreach.
  assert (Hclean : cleanStrings st).
  { induction Hreach as [|st fetched _ IH|st now fetched _ IH].
    - split; [done|constructor].
    - apply (fetchDevices_invariant_cells cleanStrings); [|done].
      intros. by apply cleanStrings_register.
    - destruct IH as [Hmac Hname]. split.
      + destruct (fetchLanStatistics_sameViews growslice st now fetched) as (-> & _).
        done.
      + by rewrite fetchLanStatistics_names. }
  destruct Hclean as [Hmac Hname]. split; [done|].
  intros p d Hd. rewrite Forall_lookup in Hname. apply (Hname p).
  unfold names. by rewrite list_lookup_fmap, Hd.
Qed.

Lemma registered_strings_witness :
  let st := stateOf (fetchDevices initial
              (Parsed (devicesPage
                 [macRow (String newline "  AA:BB:CC:DD:EE:FF ");
                  nameRow (" lap" +:+ String newline "top" +:+ String tab "")]))) in
  macAddressToDevice (chartData st) !! "AA:BB:CC:DD:EE:FF" = Some 0 /\
  Trim "AA:BB:CC:DD:EE:FF" blanks = "AA:BB:CC:DD:EE:FF" /\
  (DeviceName <$> objects st !! 0) = Some "laptop".
Proof.
  intros st.
  assert (Hmac : macAddressToDevice (chartData st) !! "AA:BB:CC:DD:EE:FF" = Some 0)
    by (vm_compute; reflexivity).
  destruct (registered_strings_are_trimmed doubling st) as [Htrim _].
  { apply reachable_fetchDevices, reachable_initial. }
  split; [exact Hmac|]. split; [exact (Htrim _ _ Hmac)|].
  vm_compute. reflexivity.
Defined.

(** * The receive series as a copy of the transmit series *)

Lemma removelast_prefix {A} (l : list A) : removelast l `prefix_of` l.
Proof.
  induction l as [|a l _] using rev_ind; [done|].
  rewrite removelast_last. by apply prefix_app_r.
Qed.

(** The receive header of a record is over the array of its transmit header
    with one element more at most, and what it holds before its last element
    the transmit series begins with. *)
Definition snapshot (st : Memory) : Prop :=
  forall p d, objects st !! p = Some d ->
    (base (ReceiveBytes d) = base (TransmitBytes d) ->
     len (ReceiveBytes d) <= S (len (TransmitBytes d))) /\
    removelast (elems (arrays st) (ReceiveBytes d))
      `prefix_of` elems (arrays st) (TransmitBytes d).

Definition copied (st : Memory) : Prop := sound st /\ snapshot st.

Lemma snapshot_series st p d :
  objects st !! p = Some d ->
  transmitSeries st p = elems (arrays st) (TransmitBytes d) /\
  receiveSeries st p = elems (arrays st) (ReceiveBytes d).
Proof. intros Hd. unfold transmitSeries, receiveSeries. by rewrite Hd. Qed.

Lemma copied_register st mac name : copied st -> copied (register st mac name).
Proof.
  intros [Hsound Hsnap]. split; [by apply sound_register|].
  intros p d Hd. unfold register in Hd. cbn in Hd.
  apply lookup_snoc_inv in Hd as [Hd|[_ ->]]; [by apply (Hsnap p d)|].
  cbn. split; [lia|done].
Qed.

Section Copy.

Variable growslice : nat -> nat -> nat.

Lemma copied_recordFetch st ms : copied st -> copied (recordFetch growslice st ms).
Proof.
  intros [Hsound Hsnap]. split; [by apply sound_recordFetch|].
  intros p d Hd. change (objects st !! p = Some d) in Hd.
  destruct (Hsnap p d Hd) as [Hlen Hpre]. split; [done|].
  destruct (recordFetch_series growslice st ms p Hsound) as [Htx Hrx].
  destruct (snapshot_series st p d Hd) as [Etx Erx].
  destruct (snapshot_series (recordFetch growslice st ms) p d Hd) as [Etx' Erx'].
  by rewrite <- Etx', <- Erx', Htx, Hrx, Etx, Erx.
Qed.

Lemma copied_appendReceive st p x :
  copied st -> copied (appendReceive growslice st p x).
Proof.
  intros [Hsound Hsnap]. split; [by apply sound_appendReceive|].
  intros q d' Hd'.
  destruct (appendReceive_series growslice st p x q Hsound) as [Htx Hrx].
  destruct (snapshot_series _ q d' Hd') as [Etx' Erx'].
  rewrite <- Etx', <- Erx', Htx, Hrx. clear Etx' Erx' Htx Hrx.
  unfold appendReceive in Hd'. destruct (objects st !! p) as [d|] eqn:Hd.
  - pose proof (lookup_lt_Some _ _ _ Hd) as Hp. cbn in Hd'.
    destruct (decide (q = p)) as [->|Hne].
    + rewrite list_lookup_insert_eq in Hd' by done. injection Hd' as <-. cbn.
      rewrite decide_True by done. rewrite removelast_last. split; [|done].
      intros _. rewrite append_len. lia.
    + rewrite list_lookup_insert_ne in Hd' by done. rewrite decide_False by tauto.
      destruct (Hsnap q d' Hd') as [Hlen Hpre]. split; [done|].
      destruct (snapshot_series st q d' Hd') as [-> ->]. done.
  - apply lookup_ge_None in Hd. rewrite decide_False by lia.
    destruct (Hsnap q d' Hd') as [Hlen Hpre]. split; [done|].
    destruct (snapshot_series st q d' Hd') as [-> ->]. done.
Qed.

Lemma copied_appendTransmit st p x :
  copied st -> copied (appendTransmit growslice st p x).
Proof.
  intros [Hsound Hsnap]. split; [by apply sound_appendTransmit|].
  intros q d' Hd'.
  destruct (objects st !! p) as [d|] eqn:Hd.
  2:{ assert (Hst : appendTransmit growslice st p x = st)
        by (unfold appendTransmit; by rewrite Hd).
      rewrite Hst in *. by apply (Hsnap q d'). }
  pose proof (lookup_lt_Some _ _ _ Hd) as Hp.
  destruct (decide (q = p)) as [->|Hne].
  - unfold appendTransmit in *. rewrite Hd in *. cbn [objects arrays] in *.
    rewrite list_lookup_insert_eq in Hd' by done. injection Hd' as <-.
    cbn [TransmitBytes ReceiveBytes].
    destruct (Hsnap p d Hd) as [Hlen Hpre].
    destruct Hsound as [[H0 Hts Htxok Hrxok Hap] _].
    pose proof (Htxok p d Hd) as (Hbt & Hlt & Hct).
    pose proof (Hrxok p d Hd) as (Hbr & Hlr & Hcr).
    split.
    + intros Hbase. rewrite append_len.
      destruct (append_base growslice (arrays st) (TransmitBytes d) x)
        as [[Hb _]|Hb]; rewrite Hb in Hbase; [specialize (Hlen Hbase)|]; lia.
    + destruct (decide (base (TransmitBytes d) = base (ReceiveBytes d)
                        /\ len (TransmitBytes d) < len (ReceiveBytes d)
                        /\ cap (TransmitBytes d) <> 0)) as [(Hb & Hl & Hc)|Hno].
      * assert (Hrl : len (ReceiveBytes d) = S (len (TransmitBytes d)))
          by (specialize (Hlen (eq_sym Hb)); lia).
        assert (Hcap : cap (ReceiveBytes d) = cap (TransmitBytes d))
          by (rewrite Hct, Hcr; unfold backing; by rewrite Hb).
        replace (elems (fst (append growslice (arrays st) (TransmitBytes d) x))
                       (ReceiveBytes d))
          with (elems (fst (append growslice (arrays st) (TransmitBytes d) x))
                      (snd (append growslice (arrays st) (TransmitBytes d) x))).
        { apply removelast_prefix. }
        unfold append. rewrite decide_True by lia. cbn [fst snd].
        unfold elems, backing. cbn [base len]. by rewrite Hb, Hrl.
      * rewrite (append_elems growslice _ _ x (Htxok p d Hd)).
        rewrite append_elems_other.
        -- by apply prefix_app_r.
        -- done.
        -- unfold apart. lia.
  - destruct (appendTransmit_series growslice st p x q Hsound) as [Htx Hrx].
    specialize (Hrx Hne). rewrite decide_False in Htx by tauto.
    rewrite app_nil_r in Htx.
    destruct (snapshot_series _ q d' Hd') as [Etx' Erx'].
    rewrite <- Etx', <- Erx', Htx, Hrx. clear Etx' Erx' Htx Hrx.
    unfold appendTransmit in Hd'. rewrite Hd in Hd'. cbn in Hd'.
    rewrite list_lookup_insert_ne in Hd' by done.
    destruct (Hsnap q d' Hd') as [Hlen Hpre]. split; [done|].
    destruct (snapshot_series st q d' Hd') as [-> ->]. done.
Qed.

Lemma reachable_copied st : reachable growslice st -> copied st.
Proof.
  induction 1 as [|st fetched _ IH|st now fetched _ IH].
  - split; [apply sound_initial|]. intros p d Hd. cbn in Hd. by rewrite lookup_nil in Hd.
  - apply (fetchDevices_invariant copied); [|done].
    intros. by apply copied_register.
  - apply (fetchLanStatistics_invariant growslice copied).
    + intros. by apply copied_appendTransmit.
    + intros. by apply copied_appendReceive.
    + by apply copied_recordFetch.
Qed.

End Copy.

(** X14. In every store the program can be in, the receive series of a device is
    a copy of its transmit series: what it holds before its last value is
    what the transmit series begins with, so it is longer than the transmit
    series by one value at most and keeps no history of column 8. *)
Theorem receive_series_copies_transmit_series
    (growslice : nat -> nat -> nat) (st : Memory) (p : nat) :
  reachable growslice st ->
  removelast (receiveSeries st p) `prefix_of` transmitSeries st p /\
  length (receiveSeries st p) <= S (length (transmitSeries st p)).
Proof.
  intros Hreach.
  assert (Hpre : removelast (receiveSeries st p) `prefix_of` transmitSeries st p).
  { destruct (reachable_copied growslice st Hreach) as [_ Hsnap].
    unfold receiveSeries, transmitSeries.
    destruct (objects st !! p) as [d|] eqn:Hd; [|done].
    by apply (Hsnap p d Hd). }
  split; [done|]. apply prefix_length in Hpre.
  destruct (receiveSeries st p) as [|v l] using rev_ind; [cbn; lia|].
  rewrite removelast_last in Hpre. rewrite length_app. cbn. lia.
Qed.

Lemma receive_series_copies_witness :
  let st1 := fst (fetchLanStatistics doubling registered noon
                    (Parsed (statisticsPage [statisticsRow laptop ["5"; "6"]]))) in
  let st2 := fst (fetchLanStatistics doubling st1 noon
                    (Parsed (statisticsPage [statisticsRow laptop ["7"; "8"]]))) in
  transmitSeries st2 0 = [5%Z; 7%Z] /\
  removelast (receiveSeries st2 0) `prefix_of` transmitSeries st2 0.
Proof.
  intros st1 st2. split; [vm_compute; reflexivity|].
  apply (receive_series_copies_transmit_series doubling st2 0).
  do 2 apply reachable_fetchLanStatistics.
  apply reachable_fetchDevices, reachable_initial.
Defined.
